(** * go_query_api: the query-generation core

    A shallow embedding of package [services]: the field service
    ([FieldService]: loading the catalog, field matching, the table
    relationship graph, breadth-first join paths) and the query service
    ([internal/services/query_service.go]: keyword extraction, intent
    classification, SQL assembly, confidence, the pipeline [GenerateQuery]
    and fuzzy keyword expansion).

    Modelling conventions.
    - Go [string] is [String.string] (a byte sequence); [s[0:1]] is a byte
      slice and panics on the empty string.
    - Go [int] is [Z]; [len] is [Z.of_nat (length _)].
    - Go [float64] is the interface [Float64], instantiated by the kernel's
      IEEE-754 binary64 numbers ([float64_ieee]) and by exact rationals
      ([float64_exact], float64 without rounding, for the statements
      that are about scores and means as numbers).
    - Go maps are [gmap string _]; a [range] over a map visits the keys in an
      order the language leaves unspecified, which is an explicit parameter
      (a [MapOrder]) of every function that ranges over a map.
    - A Go [error] made by [fmt.Errorf] is its message; a run-time panic is
      the outcome [Panicked]. *)

From Stdlib Require Import ZArith String Ascii Floats QArith Qminmax Permutation Lia Lqa.
From stdpp Require Import gmap strings list fin_maps pretty.

Open Scope string_scope.
Open Scope list_scope.
Open Scope Z_scope.

(** ** Go library functions the services call *)

(** [strings.Contains s substr]: [substr] occurs in [s] as a contiguous
    byte sequence. *)
Fixpoint Contains (s substr : string) : bool :=
  String.prefix substr s ||
  match s with
  | EmptyString => false
  | String _ s' => Contains s' substr
  end.

(** ASCII instance of [strings.ToLower], used to run the model on concrete
    inputs. The services themselves take the lower-casing function as a
    parameter, so what is proved of them holds for Go's Unicode-aware
    [strings.ToLower] as well. *)
Definition lower_byte (c : ascii) : ascii :=
  let n := nat_of_ascii c in
  if (Nat.leb 65 n && Nat.leb n 90)%bool then ascii_of_nat (n + 32) else c.

Fixpoint asciiToLower (s : string) : string :=
  match s with
  | EmptyString => EmptyString
  | String c s' => String (lower_byte c) (asciiToLower s')
  end.

(** [strings.Join elems sep]. *)
Fixpoint Join_strings (elems : list string) (sep : string) : string :=
  match elems with
  | [] => ""
  | [x] => x
  | x :: rest => x +:+ sep +:+ Join_strings rest sep
  end.

(** The outcome of running a Go function that indexes or slices. *)
Inductive outcome (A : Type) : Type :=
| Returned (a : A)
| Panicked (msg : string).
Arguments Returned {A} a.
Arguments Panicked {A} msg.

(** [s[0:1]]: the one-byte prefix; out of range on the empty string. *)
Definition slice_0_1 (s : string) : outcome string :=
  match s with
  | EmptyString => Panicked "slice bounds out of range [:1] with length 0"
  | String c _ => Returned (String c EmptyString)
  end.

(** ** float64 *)

(** The operations on [float64] that the services use. *)
Class Float64 (F : Type) := {
  f64_of_int : Z -> F;
  f64_add : F -> F -> F;
  f64_mul : F -> F -> F;
  f64_div : F -> F -> F;
  f64_lt : F -> F -> bool
}.

(** IEEE-754 binary64. Only non-negative ints (lengths and counts) are
    converted, and these fit the 63-bit primitive integers. *)
#[export] Instance float64_ieee : Float64 float := {
  f64_of_int n := PrimFloat.of_uint63 (Uint63.of_Z n);
  f64_add := PrimFloat.add;
  f64_mul := PrimFloat.mul;
  f64_div := PrimFloat.div;
  f64_lt := PrimFloat.ltb
}.

(** Exact arithmetic: float64 without rounding. *)
#[export] Instance float64_exact : Float64 Q := {
  f64_of_int n := inject_Z n;
  f64_add := Qplus;
  f64_mul := Qmult;
  f64_div := Qdiv;
  f64_lt x y := match Qcompare x y with Lt => true | _ => false end
}.

(** [<] on float64 is a strict order (NaN is incomparable). *)
Class Float64Order (F : Type) `{Float64 F} := {
  f64_lt_asym : forall x y : F, f64_lt x y = true -> f64_lt y x = false;
  f64_lt_trans : forall x y z : F,
    f64_lt x y = true -> f64_lt y z = true -> f64_lt x z = true
}.

(** ** models *)

Module Field.
Record t := mk {
  ColumnName : string;
  TableName : string;
  SystemAFieldMap : string;
  SystemBFieldMap : string;
  Description : string;
  FieldType : string;
  JoinKey : string;
  ForeignTable : string;
  ForeignKey : string
}.
End Field.

Module FieldMatch.
Record t (F : Type) := mk {
  ColumnName : string;
  TableName : string;
  FieldDescription : string;
  MatchScore : F
}.
Arguments mk {F} _ _ _ _.
Arguments ColumnName {F} _.
Arguments TableName {F} _.
Arguments FieldDescription {F} _.
Arguments MatchScore {F} _.
End FieldMatch.

Module Join.
Record t := mk {
  From : string;
  To : string;
  Condition : string
}.
(** The zero value, which a lookup of a missing map key yields. *)
Definition zero : t := mk "" "" "".
End Join.

#[export] Instance Join_eq_dec : EqDecision Join.t.
Proof. solve_decision. Defined.

(** ** query_service.go: identifyQueryType *)

Section IntentClassifier.
Variable ToLower : string -> string.

Definition identifyQueryType (description : string) : string * bool :=
  let desc := ToLower description in
  if (Contains desc "count" || Contains desc "how many" ||
      Contains desc "number of")%bool
  then ("COUNT", false)
  else if (Contains desc "group" || Contains desc "grouped" ||
           Contains desc "per")%bool
  then ("GROUP", false)
  else
    let distinct := (Contains desc "distinct" || Contains desc "unique" ||
                     Contains desc "different")%bool in
    ("SELECT", distinct).

(** The classifier as the specification words it: the first cue list with a
    member occurring in the lower-cased description decides the intent. *)
Definition contains_any (desc : string) (cues : list string) : bool :=
  existsb (Contains desc) cues.

Definition Classify_spec (description : string) : string * bool :=
  let desc := ToLower description in
  if contains_any desc ["count"; "how many"; "number of"] then ("COUNT", false)
  else if contains_any desc ["group"; "grouped"; "per"] then ("GROUP", false)
  else ("SELECT", contains_any desc ["distinct"; "unique"; "different"]).
End IntentClassifier.

(** ** Map iteration order *)

(** [for k := range m] visits the keys of [m] in an unspecified order, which
    may differ from one loop to the next. A [MapOrder] chooses the order: it
    is given the position of the [range] statement in the run (a path of
    loop and call indices) and the keys, and returns them rearranged. *)
Definition MapOrder : Type := list nat -> list string -> list string.

(** What Go guarantees of an iteration: every key is visited once. *)
Definition valid_order (ord : MapOrder) : Prop :=
  forall (p : list nat) (l : list string), ord p l ≡ₚ l.

(** The order seen by the [i]-th sub-computation. *)
Definition sub (i : nat) (ord : MapOrder) : MapOrder := fun p => ord (i :: p).

Definition range_keys {A} (ord : MapOrder) (m : gmap string A) : list string :=
  ord [] (map_to_list m).*1.

(** Two orders used to run the model: the listing of the map library as it
    is, and that listing reversed. *)
Definition ord_id : MapOrder := fun _ l => l.
Definition ord_rev : MapOrder := fun _ l => rev l.

(** A Go [(value, error)] pair: the value when the error is [nil], else the
    error's message. *)
Inductive result (A : Type) : Type :=
| Ok (a : A)
| Err (msg : string).
Arguments Ok {A} a.
Arguments Err {A} msg.

(** ** The field service *)

Abbreviation Graph := (gmap string (gmap string Join.t)).

(** [g[a]]: a missing key reads as the nil (empty) map. *)
Definition neighbors (g : Graph) (a : string) : gmap string Join.t :=
  default ∅ (g !! a).

(** [g[a][b]]: a missing key reads as the zero [Join]. *)
Definition edge_at (g : Graph) (a b : string) : Join.t :=
  default Join.zero (neighbors g a !! b).

(** [g[a][b] = j], creating nothing: the inner map must exist, as it does
    after the two existence checks of [buildRelationshipGraph]. *)
Definition set_edge (g : Graph) (a b : string) (j : Join.t) : Graph :=
  <[a := <[b := j]> (neighbors g a)]> g.

Definition ensure_node (g : Graph) (a : string) : Graph :=
  match g !! a with
  | Some _ => g
  | None => <[a := ∅]> g
  end.

Definition joinCondition (field : Field.t) : string :=
  Field.TableName field +:+ "." +:+ Field.ColumnName field +:+ " = " +:+
  Field.ForeignTable field +:+ "." +:+ Field.ForeignKey field.

Definition has_foreign_key (field : Field.t) : bool :=
  negb (bool_decide (Field.ForeignTable field = "") ||
        bool_decide (Field.ForeignKey field = "")).

(** One iteration of the loop of [buildRelationshipGraph]. *)
Definition addRelationship (g : Graph) (field : Field.t) : Graph :=
  if has_foreign_key field then
    let g := ensure_node g (Field.TableName field) in
    let g := ensure_node g (Field.ForeignTable field) in
    let g := set_edge g (Field.TableName field) (Field.ForeignTable field)
               (Join.mk (Field.TableName field) (Field.ForeignTable field)
                        (joinCondition field)) in
    set_edge g (Field.ForeignTable field) (Field.TableName field)
      (Join.mk (Field.ForeignTable field) (Field.TableName field)
               (joinCondition field))
  else g.

(** [buildRelationshipGraph], run on the empty graph [NewFieldService]
    makes. *)
Definition buildRelationshipGraph (fields : list Field.t) : Graph :=
  foldl addRelationship ∅ fields.

Section FieldMatcher.
Context {F : Type} `{Float64 F}.
Variable ToLower : string -> string.

Definition calculateMatchScore (description : string) (keywords : list string) : F :=
  match keywords with
  | [] => f64_of_int 0
  | _ =>
    let description := ToLower description in
    let matchedCount :=
      foldl (fun (matchedCount : Z) keyword =>
               if Contains description (ToLower keyword)
               then matchedCount + 1 else matchedCount) 0 keywords in
    f64_mul (f64_div (f64_of_int matchedCount)
                     (f64_of_int (Z.of_nat (length keywords))))
            (f64_of_int 100)
  end.

(** [if matches[i].MatchScore < matches[j].MatchScore { swap }]. *)
Definition swap_if_less (i j : nat) (matches : list (FieldMatch.t F))
  : list (FieldMatch.t F) :=
  match matches !! i, matches !! j with
  | Some a, Some b =>
    if f64_lt (FieldMatch.MatchScore a) (FieldMatch.MatchScore b)
    then <[j := a]> (<[i := b]> matches)
    else matches
  | _, _ => matches
  end.

(** The inner loop, [j] from [i+1] to [len-1]. *)
Definition sort_inner (i : nat) (matches : list (FieldMatch.t F))
  : list (FieldMatch.t F) :=
  foldl (fun ms j => swap_if_less i j ms) matches
        (seq (S i) (length matches - S i)).

Definition sortMatchesByScore (matches : list (FieldMatch.t F))
  : list (FieldMatch.t F) :=
  foldl (fun ms i => sort_inner i ms) matches (seq 0 (length matches)).

(** The loop over the catalog: fields below the threshold are skipped. *)
Definition collectMatches (fields : list Field.t) (keywords : list string)
    (threshold : F) : list (FieldMatch.t F) :=
  foldl (fun matches field =>
           let score := calculateMatchScore (Field.Description field) keywords in
           if f64_lt score threshold then matches
           else (matches ++ [FieldMatch.mk (Field.ColumnName field)
                                           (Field.TableName field)
                                           (Field.Description field) score])%list)
        [] fields.

Definition FindFieldMatches (fields : list Field.t) (keywords : list string)
    (threshold : F) (maxMatches : Z) : outcome (list (FieldMatch.t F)) :=
  let matches := sortMatchesByScore (collectMatches fields keywords threshold) in
  if Z.of_nat (length matches) >? maxMatches then
    if maxMatches <? 0
    then Panicked "slice bounds out of range"
    else Returned (take (Z.to_nat maxMatches) matches)
  else Returned matches.
End FieldMatcher.

(** *** Join paths *)

Record bfs_state := mk_bfs {
  queue : list string;
  visited : gmap string bool;
  parents : gmap string string
}.

(** [visited[k]]: a missing key reads as [false]. *)
Definition is_visited (st : bfs_state) (k : string) : bool :=
  default false (visited st !! k).

(** The body of [for neighbor := range g[current]]. *)
Definition visit (current : string) (st : bfs_state) (neighbor : string)
  : bfs_state :=
  if is_visited st neighbor then st
  else mk_bfs (queue st ++ [neighbor])%list
              (<[neighbor := true]> (visited st))
              (<[neighbor := current]> (parents st)).

(** The path-reconstruction loop
    [for node := end; node != start; node = parents[node]], which prepends
    [parents[node]]; [None] when the model's fuel runs out. *)
Fixpoint reconstruct (fuel : nat) (parents : gmap string string)
    (start node : string) (path : list string) : option (list string) :=
  if decide (node = start) then Some path
  else match fuel with
       | O => None
       | S fuel =>
         let parent := default "" (parents !! node) in
         reconstruct fuel parents start parent (parent :: path)
       end.

Definition no_path_error (start end_ : string) : string :=
  "no join path found between " +:+ start +:+ " and " +:+ end_.

(** The loop [for len(queue) > 0]; [k] counts the iterations done, and
    [None] means the model's fuel ran out. *)
Fixpoint bfs_loop (fuel : nat) (ord : MapOrder) (g : Graph)
    (start end_ : string) (k : nat) (st : bfs_state)
  : option (result (list string)) :=
  match queue st with
  | [] => Some (Err (no_path_error start end_))
  | current :: rest =>
    match fuel with
    | O => None
    | S fuel =>
      if decide (current = end_) then
        Ok <$> reconstruct (size (parents st)) (parents st) start end_ [end_]
      else
        let st := mk_bfs rest (visited st) (parents st) in
        let st := foldl (visit current) st
                        (range_keys (sub k ord) (neighbors g current)) in
        bfs_loop fuel ord g start end_ (S k) st
    end
  end.

(** Every table named in the graph, as a key or as a neighbour. *)
Definition graph_nodes (g : Graph) : gset string :=
  dom g ∪ ⋃ (dom <$> (map_to_list g).*2).

Definition bfsShortestPath (ord : MapOrder) (g : Graph) (start end_ : string)
  : option (result (list string)) :=
  bfs_loop (S (size (graph_nodes g))) ord g start end_ 0
           (mk_bfs [start] {[start := true]} ∅).

(** The loop converting a path of tables to joins. *)
Fixpoint path_to_joins (g : Graph) (path : list string) : list Join.t :=
  match path with
  | a :: ((b :: _) as rest) => edge_at g a b :: path_to_joins g rest
  | _ => []
  end.

Definition not_found_error (table : string) : string :=
  "table " +:+ table +:+ " not found in relationship graph".

Definition FindJoinPath (ord : MapOrder) (g : Graph) (fromTable toTable : string)
  : option (result (list Join.t)) :=
  if decide (fromTable = toTable) then Some (Ok [])
  else match g !! fromTable with
  | None => Some (Err (not_found_error fromTable))
  | Some _ =>
    match g !! toTable with
    | None => Some (Err (not_found_error toTable))
    | Some _ =>
      match bfsShortestPath ord g fromTable toTable with
      | None => None
      | Some (Err e) => Some (Err e)
      | Some (Ok path) => Some (Ok (path_to_joins g path))
      end
    end
  end.

(** ** query_service.go *)

(** The map [uniqueJoins] after the first loop of [deduplicateJoins]. *)
Definition uniqueJoins (joins : list Join.t) : gmap string Join.t :=
  foldl (fun m join => <[Join.Condition join := join]> m) ∅ joins.

Definition deduplicateJoins (ord : MapOrder) (joins : list Join.t) : list Join.t :=
  if Z.of_nat (length joins) <=? 1 then joins
  else
    let m := uniqueJoins joins in
    (fun key => default Join.zero (m !! key)) <$> range_keys ord m.

Section SQLAssembler.
Context {F : Type} `{Float64 F}.

(** The set [tables] and the slice [tableNames] ranged out of it. *)
Definition requiredTables (matches : list (FieldMatch.t F)) : gmap string bool :=
  foldl (fun tables m => <[FieldMatch.TableName m := true]> tables) ∅ matches.

Definition tableNames (ord : MapOrder) (matches : list (FieldMatch.t F))
  : list string :=
  range_keys (sub 0 ord) (requiredTables matches).

(** The loop [for i := 1; i < len(tableNames); i++] calling [FindJoinPath]
    from [tableNames[0]]; [others] is [tableNames[i:]]. *)
Fixpoint collectJoins (ord : MapOrder) (g : Graph) (primary : string)
    (others : list string) (i : nat) (allJoins : list Join.t)
  : option (result (list Join.t)) :=
  match others with
  | [] => Some (Ok allJoins)
  | table :: rest =>
    match FindJoinPath (sub 1 (sub i ord)) g primary table with
    | None => None
    | Some (Err e) => Some (Err ("failed to find join path: " +:+ e))
    | Some (Ok joins) =>
      collectJoins ord g primary rest (S i) (allJoins ++ joins)%list
    end
  end.

(** [allJoins] as it stands after the planning block. *)
Definition planJoins (ord : MapOrder) (g : Graph) (names : list string)
  : option (result (list Join.t)) :=
  match names with
  | primary :: ((_ :: _) as others) =>
    match collectJoins ord g primary others 1 [] with
    | Some (Ok allJoins) => Some (Ok (deduplicateJoins (sub 2 ord) allJoins))
    | r => r
    end
  | _ => Some (Ok [])
  end.

Definition qualified (m : FieldMatch.t F) : string :=
  FieldMatch.TableName m +:+ "." +:+ FieldMatch.ColumnName m.

Definition selectClause (first : FieldMatch.t F) (matches : list (FieldMatch.t F))
    (queryType : string) (distinct : bool) : string :=
  if decide (queryType = "COUNT") then "COUNT(" +:+ qualified first +:+ ")"
  else if decide (queryType = "GROUP") then qualified first +:+ ", COUNT(*)"
  else
    let fields := qualified <$> matches in
    if distinct then "DISTINCT " +:+ Join_strings fields ", "
    else Join_strings fields ", ".

(** The loop building [joinClauses]; the state is the clauses so far and
    the set [tablesInJoin]. *)
Fixpoint joinClauses (allJoins : list Join.t) (clauses : list string)
    (tablesInJoin : gmap string bool) : outcome (list string) :=
  match allJoins with
  | [] => Returned clauses
  | join :: rest =>
    if default false (tablesInJoin !! Join.To join)
    then joinClauses rest clauses tablesInJoin
    else
      match slice_0_1 (Join.To join) with
      | Panicked msg => Panicked msg
      | Returned alias =>
        joinClauses rest
          (clauses ++ ["JOIN " +:+ Join.To join +:+ " " +:+ alias +:+
                       " ON " +:+ Join.Condition join])%list
          (<[Join.To join := true]> tablesInJoin)
      end
    end.

Definition assemble (selectClause fromClause : string) (joinClauses : list string)
    (whereClause groupByClause limitClause : string) : string :=
  let query := "SELECT " +:+ selectClause +:+ " FROM " +:+ fromClause in
  let query := if Z.of_nat (length joinClauses) >? 0
               then query +:+ " " +:+ Join_strings joinClauses " " else query in
  let query := if decide (whereClause <> "")
               then query +:+ " WHERE " +:+ whereClause else query in
  let query := if decide (groupByClause <> "")
               then query +:+ " " +:+ groupByClause else query in
  if decide (limitClause <> "") then query +:+ " " +:+ limitClause else query.

(** [buildSQLQuery]: [None] when the model's fuel ran out inside
    [FindJoinPath], a panic where a slice is out of range, and otherwise
    the Go result [(query, allJoins)] or the error. *)
Definition buildSQLQuery (ord : MapOrder) (g : Graph)
    (matches : list (FieldMatch.t F)) (queryType : string) (distinct : bool)
    (limit : Z) : option (outcome (result (string * list Join.t))) :=
  match matches with
  | [] => Some (Returned (Err "no field matches provided"))
  | first :: _ =>
    match tableNames ord matches with
    | [] => Some (Panicked "index out of range [0] with length 0")
    | (primary :: _) as names =>
      match planJoins ord g names with
      | None => None
      | Some (Err e) => Some (Returned (Err e))
      | Some (Ok allJoins) =>
        let selectClause := selectClause first matches queryType distinct in
        match slice_0_1 primary with
        | Panicked msg => Some (Panicked msg)
        | Returned alias =>
          let fromClause := primary +:+ " " +:+ alias in
          match joinClauses allJoins [] {[primary := true]} with
          | Panicked msg => Some (Panicked msg)
          | Returned joinClauses =>
            let whereClause := "" in
            let groupByClause :=
              if decide (queryType = "GROUP")
              then "GROUP BY " +:+ qualified first else "" in
            let limitClause :=
              if limit >? 0 then "LIMIT " +:+ pretty limit else "" in
            Some (Returned (Ok
              (assemble selectClause fromClause joinClauses
                        whereClause groupByClause limitClause, allJoins)))
          end
        end
      end
    end
  end.

(** [math.Min] as the file defines it. *)
Definition Min (a b : F) : F := if f64_lt a b then a else b.

Definition calculateConfidence (matches : list (FieldMatch.t F)) : F :=
  match matches with
  | [] => f64_of_int 0
  | _ =>
    let total := foldl (fun total m => f64_add total (FieldMatch.MatchScore m))
                       (f64_of_int 0) matches in
    let confidence := f64_div total (f64_of_int (Z.of_nat (length matches))) in
    let fieldCountFactor :=
      Min (f64_div (f64_of_int (Z.of_nat (length matches))) (f64_of_int 3))
          (f64_of_int 1) in
    f64_mul confidence fieldCountFactor
  end.
End SQLAssembler.

(** ** The field service: loading and listing *)

(** The [Field] of a CSV row, [row[0]] to [row[8]]; [None] for a row of
    fewer than nine columns, which [loadCSV] skips. *)
Definition field_of_row (row : list string) : option Field.t :=
  match row with
  | c0 :: c1 :: c2 :: c3 :: c4 :: c5 :: c6 :: c7 :: c8 :: _ =>
    Some (Field.mk c0 c1 c2 c3 c4 c5 c6 c7 c8)
  | _ => None
  end.

(** The loop of [loadCSV] over the records read from the file: the first
    record is the header, and the fields are appended to [s.fields]. *)
Definition loadRecords (fields : list Field.t) (records : list (list string))
  : list Field.t :=
  match records with
  | [] => fields
  | _ :: rows =>
    foldl (fun fields row =>
             if Z.of_nat (length row) <? 9 then fields
             else match field_of_row row with
                  | Some field => fields ++ [field]
                  | None => fields
                  end)
          fields rows
  end.

(** The state of a [FieldService]. *)
Module FieldService.
Record t := mk {
  fields : list Field.t;
  relationshipGraph : Graph
}.
End FieldService.

(** [NewFieldService], from the records of the CSV file. *)
Definition NewFieldService (records : list (list string)) : FieldService.t :=
  let fields := loadRecords [] records in
  FieldService.mk fields (buildRelationshipGraph fields).

Definition GetAllFields (s : FieldService.t) (system : string) : list Field.t :=
  if (bool_decide (system = "") || bool_decide (system = "default"))%bool
  then FieldService.fields s
  else
    foldl (fun filtered field =>
             if ((bool_decide (system = "system_a") &&
                  negb (bool_decide (Field.SystemAFieldMap field = ""))) ||
                 (bool_decide (system = "system_b") &&
                  negb (bool_decide (Field.SystemBFieldMap field = ""))))%bool
             then filtered ++ [field] else filtered)
          [] (FieldService.fields s).

(** ** The query service: keywords *)

(** The regular-expression class [\w]: an ASCII letter, digit or
    underscore. *)
Definition is_word_byte (c : ascii) : bool :=
  let n := nat_of_ascii c in
  ((Nat.leb 48 n && Nat.leb n 57) || (Nat.leb 65 n && Nat.leb n 90) ||
   (Nat.leb 97 n && Nat.leb n 122) || Nat.eqb n 95)%bool.

(** The regular-expression class [\s]: tab, line feed, form feed, carriage
    return, space. *)
Definition is_regexp_space (c : ascii) : bool :=
  let n := nat_of_ascii c in
  (Nat.eqb n 9 || Nat.eqb n 10 || Nat.eqb n 12 || Nat.eqb n 13 || Nat.eqb n 32)%bool.

(** The white space [strings.Fields] splits an ASCII string at: the class
    [\s] and the vertical tab. *)
Definition is_space_byte (c : ascii) : bool :=
  (is_regexp_space c || Nat.eqb (nat_of_ascii c) 11)%bool.

(** [regexp.MustCompile(`[^\w\s]`).ReplaceAllString(s, " ")], byte by byte.
    Go replaces a multi-byte character by one space where this replaces
    each of its bytes; the result is ASCII either way and differs only in
    the length of runs of spaces, which [strings.Fields] does not see. *)
Fixpoint sanitize (s : string) : string :=
  match s with
  | EmptyString => EmptyString
  | String c s' =>
    String (if (is_word_byte c || is_regexp_space c)%bool then c else " "%char)
           (sanitize s')
  end.

(** [strings.Fields] on an ASCII string; [word] is the word being read. *)
Fixpoint Fields_from (s : string) (word : string) : list string :=
  match s with
  | EmptyString => if bool_decide (word = "") then [] else [word]
  | String c s' =>
    if is_space_byte c
    then if bool_decide (word = "") then Fields_from s' ""
         else word :: Fields_from s' ""
    else Fields_from s' (word +:+ String c EmptyString)
  end.

Definition Fields (s : string) : list string := Fields_from s "".

Definition stopwords : list string :=
  [ "a"; "an"; "the"; "and"; "or";
    "for"; "in"; "on"; "at"; "by"; "to";
    "with"; "about"; "as"; "into"; "like";
    "through"; "after"; "over"; "between"; "out";
    "against"; "during"; "without"; "before"; "under";
    "around"; "among"; "is"; "are"; "was"; "were";
    "be"; "been"; "being"; "have"; "has"; "had";
    "do"; "does"; "did"; "but"; "if"; "of";
    "from"; "get"; "all"; "show"; "find"; "can";
    "i"; "me"; "my"; "myself"; "we"; "our";
    "us"; "ourselves"; "you"; "your"; "yourself";
    "he"; "him"; "his"; "himself"; "she"; "her";
    "hers"; "herself"; "it"; "its"; "itself";
    "they"; "them"; "their"; "theirs"; "themselves";
    "what"; "which"; "who"; "whom"; "whose" ].

Definition extractKeywords (ToLower : string -> string) (description : string)
  : list string :=
  let sanitized := sanitize (ToLower description) in
  let words := Fields sanitized in
  foldl (fun keywords word =>
           if (negb (bool_decide (word ∈ stopwords)) &&
               (Z.of_nat (String.length word) >? 1))%bool
           then keywords ++ [word] else keywords)
        [] words.

(** ** The query service: the pipeline *)

Module QueryRequest.
Record t := mk {
  Description : string;
  System : string;
  Limit : Z
}.
End QueryRequest.

Module QueryResponse.
Record t (F : Type) := mk {
  Query : string;
  MatchedFields : list (FieldMatch.t F);
  JoinsUsed : list Join.t;
  Confidence : F;
  ProcessingTime : Z
}.
Arguments mk {F} _ _ _ _ _.
Arguments Query {F} _.
Arguments MatchedFields {F} _.
Arguments JoinsUsed {F} _.
Arguments Confidence {F} _.
Arguments ProcessingTime {F} _.
End QueryResponse.

Section Pipeline.
Context {F : Type} `{Float64 F}.
Variable ToLower : string -> string.

(** [GenerateQuery]; [elapsed] is what [time.Since(startTime).Milliseconds()]
    reads. *)
Definition GenerateQuery (ord : MapOrder) (s : FieldService.t)
    (request : QueryRequest.t) (elapsed : Z)
  : option (outcome (result (QueryResponse.t F))) :=
  let keywords := extractKeywords ToLower (QueryRequest.Description request) in
  let '(queryType, distinct) :=
    identifyQueryType ToLower (QueryRequest.Description request) in
  match FindFieldMatches ToLower (FieldService.fields s) keywords (f64_of_int 30) 10 with
  | Panicked msg => Some (Panicked msg)
  | Returned matchedFields =>
    if Z.of_nat (length matchedFields) =? 0
    then Some (Returned (Err "no matching fields found for description"))
    else
      match buildSQLQuery ord (FieldService.relationshipGraph s) matchedFields queryType
                          distinct (QueryRequest.Limit request) with
      | None => None
      | Some (Panicked msg) => Some (Panicked msg)
      | Some (Returned (Err e)) =>
        Some (Returned (Err ("failed to build SQL query: " +:+ e)))
      | Some (Returned (Ok (query, joins))) =>
        let confidence := calculateConfidence matchedFields in
        Some (Returned (Ok (QueryResponse.mk query matchedFields joins
                                             confidence elapsed)))
      end
  end.
End Pipeline.

(** ** The query service: fuzzy keyword expansion *)

(** [stringMapToSlice]. *)
Definition stringMapToSlice (ord : MapOrder) (m : gmap string bool) : list string :=
  range_keys ord m.

Section Fuzzy.
(** [strings.ToLower], [strings.Fields] (Unicode-aware in Go) and
    [fuzzy.Find] of the fuzzysearch library are parameters. *)
Variables (ToLower : string -> string) (Fields : string -> list string)
          (fuzzyFind : string -> list string -> list string).

Definition fieldWords (fields : list Field.t) : list string :=
  foldl (fun fieldWords field =>
           fieldWords ++ Fields (ToLower (Field.Description field)))
        [] fields.

Definition uniqueFieldWords (fieldWords : list string) : gmap string bool :=
  foldl (fun m word => <[word := true]> m) ∅ fieldWords.

(** The inner loop: at most the first three matches are appended. *)
Fixpoint appendTopMatches (enhancedKeywords : list string) (matches : list string)
    (i : nat) : list string :=
  match matches with
  | [] => enhancedKeywords
  | m :: rest =>
    if Z.of_nat i >=? 3 then enhancedKeywords
    else appendTopMatches (enhancedKeywords ++ [m]) rest (S i)
  end.

(** The loop over the keywords; [k] counts the iterations, each of which
    ranges over the map anew. *)
Fixpoint enhanceLoop (ord : MapOrder) (unique : gmap string bool)
    (keywords : list string) (k : nat) (enhancedKeywords : list string)
  : list string :=
  match keywords with
  | [] => enhancedKeywords
  | keyword :: rest =>
    let matches := fuzzyFind keyword (stringMapToSlice (sub k ord) unique) in
    enhanceLoop ord unique rest (S k) (appendTopMatches enhancedKeywords matches 0)
  end.

Definition EnhanceDescriptionWithFuzzy (ord : MapOrder) (keywords : list string)
    (fields : list Field.t) : list string :=
  let enhancedKeywords := [] ++ keywords in
  let unique := uniqueFieldWords (fieldWords fields) in
  enhanceLoop ord unique keywords 0 enhancedKeywords.
End Fuzzy.

(** * Specification-level definitions *)

(** ** The relationship graph *)

Definition forward_join (f : Field.t) : Join.t :=
  Join.mk (Field.TableName f) (Field.ForeignTable f) (joinCondition f).
Definition backward_join (f : Field.t) : Join.t :=
  Join.mk (Field.ForeignTable f) (Field.TableName f) (joinCondition f).

(** [f] declares the table pair [{a, b}]. *)
Definition declares (f : Field.t) (a b : string) : Prop :=
  has_foreign_key f = true /\
  ((a = Field.TableName f /\ b = Field.ForeignTable f) \/
   (a = Field.ForeignTable f /\ b = Field.TableName f)).


(** [a] has [b] as a neighbour. *)
Definition edge (g : Graph) (a b : string) : Prop := is_Some (neighbors g a !! b).

(** [b] is reachable from [a] by [n] edges. *)
Inductive reach (g : Graph) (a : string) : nat -> string -> Prop :=
| reach_O : reach g a O a
| reach_S n b c : reach g a n b -> edge g b c -> reach g a (S n) c.

(** A sequence of tables, each a neighbour of the one before, from the
    first argument to the last. *)
Inductive walk (g : Graph) : string -> list string -> string -> Prop :=
| walk_one a : walk g a [a] a
| walk_cons a b p c : edge g a b -> walk g b p c -> walk g a (a :: p) c.

(** A sequence of joins stored in the graph, each starting where the one
    before ends. *)
Inductive join_path (g : Graph) : string -> list Join.t -> string -> Prop :=
| join_path_nil a : join_path g a [] a
| join_path_cons a j js c :
    neighbors g a !! Join.To j = Some j -> Join.From j = a ->
    join_path g (Join.To j) js c -> join_path g a (j :: js) c.

(** Every stored join is labelled with the pair it is stored under. *)
Definition labelled (g : Graph) : Prop :=
  forall a b j, neighbors g a !! b = Some j -> Join.From j = a /\ Join.To j = b.


(** ** The breadth-first search *)

Section BFSInvariant.
Variables (g : Graph) (s e : string).

Definition universe : gset string := {[s]} ∪ graph_nodes g.

(** The loop invariant of [bfsShortestPath]. [Q] is the queue, with the
    table being expanded still at its head; [P] the tables already
    expanded; [dm] the number of edges from [start] along [parents]. The
    queue holds tables of depth [d0] ([lo]) followed by tables of depth
    [d0 + 1] ([hi]). *)
Record bfs_inv (Q : list string) (st : bfs_state) (P : gset string)
    (dm : gmap string nat) (d0 : nat) (lo hi : list string) : Prop := {
  inv_visited : forall k, is_visited st k = true <-> k ∈ dom dm;
  inv_start : dm !! s = Some 0%nat;
  inv_parent : forall v, v ∈ dom dm -> v <> s ->
    exists u d, parents st !! v = Some u /\ edge g u v /\
                dm !! u = Some d /\ dm !! v = Some (S d);
  inv_parents_dom : forall v, is_Some (parents st !! v) -> v ∈ dom dm;
  inv_depth_bound : forall v d, dm !! v = Some d -> (d <= size (parents st))%nat;
  inv_split : forall v, v ∈ dom dm <-> v ∈ P \/ v ∈ Q;
  inv_fresh : forall q, q ∈ Q -> q ∉ P;
  inv_nodup : NoDup Q;
  inv_layers : Q = lo ++ hi;
  inv_lo : forall q, q ∈ lo -> dm !! q = Some d0;
  inv_hi : forall q, q ∈ hi -> dm !! q = Some (S d0);
  inv_done_depth : forall p, p ∈ P -> exists d, dm !! p = Some d /\ (d <= d0)%nat;
  inv_closed : forall u v, u ∈ P -> edge g u v ->
    exists du dv, dm !! u = Some du /\ dm !! v = Some dv /\ (dv <= S du)%nat;
  inv_end : e ∉ P;
  inv_universe : forall v, v ∈ dom dm -> v ∈ universe
}.


(** What [bfsShortestPath] returns. *)
Definition bfs_post (r : result (list string)) : Prop :=
  match r with
  | Ok path =>
    walk g s path e /\
    forall n, reach g s n e -> (length path - 1 <= n)%nat
  | Err msg =>
    msg = no_path_error s e /\ forall n, ~ reach g s n e
  end.

End BFSInvariant.

Arguments inv_visited {_ _ _ _ _ _ _ _ _ _} _.
Arguments inv_start {_ _ _ _ _ _ _ _ _ _} _.
Arguments inv_parent {_ _ _ _ _ _ _ _ _ _} _.
Arguments inv_parents_dom {_ _ _ _ _ _ _ _ _ _} _.
Arguments inv_depth_bound {_ _ _ _ _ _ _ _ _ _} _.
Arguments inv_split {_ _ _ _ _ _ _ _ _ _} _.
Arguments inv_fresh {_ _ _ _ _ _ _ _ _ _} _.
Arguments inv_end {_ _ _ _ _ _ _ _ _ _} _.
Arguments inv_universe {_ _ _ _ _ _ _ _ _ _} _.
Arguments inv_closed {_ _ _ _ _ _ _ _ _ _} _.

(** ** The field matcher *)

Section SortSpec.
Context {F : Type} `{Float64 F}.
Implicit Types (ms : list (FieldMatch.t F)) (i j : nat).

(** No score at position [b] exceeds the score at position [a]. *)
Definition not_less ms (a b : nat) : Prop :=
  forall x y, ms !! a = Some x -> ms !! b = Some y ->
    f64_lt (FieldMatch.MatchScore x) (FieldMatch.MatchScore y) = false.


(** The inner loop after [k] iterations. *)
Definition inner_upto i k ms : list (FieldMatch.t F) :=
  foldl (fun ms j => swap_if_less i j ms) ms (seq (S i) k).


(** The outer loop after [n] iterations. *)
Definition outer_upto (n : nat) ms : list (FieldMatch.t F) :=
  foldl (fun ms i => sort_inner i ms) ms (seq 0 n).

End SortSpec.

Section MatcherSpec.
Context {F : Type} `{Float64 F}.
Variable ToLower : string -> string.

(** The score as the specification words it: the share of the keywords
    that occur, case-insensitively, in the description, times 100. *)
Definition keyword_hits (description : string) (keywords : list string) : nat :=
  length (List.filter (fun k => Contains (ToLower description) (ToLower k)) keywords).

Definition score_spec (description : string) (keywords : list string) : F :=
  match keywords with
  | [] => f64_of_int 0
  | _ => f64_mul (f64_div (f64_of_int (Z.of_nat (keyword_hits description keywords)))
                          (f64_of_int (Z.of_nat (length keywords))))
                 (f64_of_int 100)
  end.

Definition field_match (keywords : list string) (field : Field.t) : FieldMatch.t F :=
  FieldMatch.mk (Field.ColumnName field) (Field.TableName field)
                (Field.Description field)
                (score_spec (Field.Description field) keywords).

Definition qualifies (keywords : list string) (threshold : F) (field : Field.t) : bool :=
  negb (f64_lt (score_spec (Field.Description field) keywords) threshold).
End MatcherSpec.


(** ** Confidence *)

(** The arithmetic mean of the match scores, in exact arithmetic. *)
Definition score_sum (matches : list (FieldMatch.t Q)) : Q :=
  fold_right Qplus 0%Q (FieldMatch.MatchScore <$> matches).

Definition mean_score (matches : list (FieldMatch.t Q)) : Q :=
  (score_sum matches / inject_Z (Z.of_nat (length matches)))%Q.

Definition confidence_spec (matches : list (FieldMatch.t Q)) : Q :=
  (mean_score matches *
   Qmin (inject_Z (Z.of_nat (length matches)) / 3) 1)%Q.


(** ** The SQL assembler *)

(** The joins [deduplicateJoins] keeps: for each condition string, the last
    join carrying it. *)
Fixpoint keep_last (joins : list Join.t) : list Join.t :=
  match joins with
  | [] => []
  | join :: rest =>
    if existsb (fun j => bool_decide (Join.Condition j = Join.Condition join)) rest
    then keep_last rest
    else join :: keep_last rest
  end.

(** The one-byte alias of a table name (empty for the empty name, where the
    Go slice expression panics). *)
Definition first_byte (table : string) : string :=
  match table with
  | EmptyString => ""
  | String c _ => String c EmptyString
  end.

Definition join_clause (join : Join.t) : string :=
  "JOIN " +:+ Join.To join +:+ " " +:+ first_byte (Join.To join) +:+
  " ON " +:+ Join.Condition join.

(** The joins that introduce a table not yet in the query. *)
Fixpoint introducing (allJoins : list Join.t) (introduced : list string)
  : list Join.t :=
  match allJoins with
  | [] => []
  | join :: rest =>
    if bool_decide (Join.To join ∈ introduced) then introducing rest introduced
    else join :: introducing rest (Join.To join :: introduced)
  end.

(** ** Sample inputs *)

(** The catalog of the README: users, orders, order items, products. *)
Definition sample_catalog : list Field.t :=
  [ Field.mk "user_id" "users" "uid" "user_identifier" "Unique identifier for user" "INTEGER" "" "" "";
    Field.mk "email" "users" "email_addr" "user_email" "User email address" "VARCHAR" "" "" "";
    Field.mk "order_id" "orders" "order_num" "transaction_id" "Unique order identifier" "INTEGER" "" "" "";
    Field.mk "user_id" "orders" "customer_id" "user_ref" "User who placed order" "INTEGER" "user_id" "users" "user_id";
    Field.mk "total_amount" "orders" "order_total" "amount" "Total order value in cents" "INTEGER" "" "" "";
    Field.mk "product_name" "products" "name" "product_title" "Product display name" "VARCHAR" "" "" "";
    Field.mk "order_item_id" "order_items" "item_id" "line_item_id" "Order line item identifier" "INTEGER" "" "" "";
    Field.mk "order_id" "order_items" "order_ref" "order_reference" "Reference to parent order" "INTEGER" "order_id" "orders" "order_id";
    Field.mk "product_id" "order_items" "prod_id" "product_reference" "Reference to product" "INTEGER" "product_id" "products" "product_id" ].

Definition sample_graph : Graph := buildRelationshipGraph sample_catalog.

(** Matches on two tables, the better one on [users]. *)
Definition email_and_total : list (FieldMatch.t float) :=
  [ FieldMatch.mk "email" "users" "User email address" 100%float;
    FieldMatch.mk "total_amount" "orders" "Total order value in cents" 50%float ].

(** A catalog in which two foreign keys of different tables print the same
    condition string, [a.b.c = d.e]. *)
Definition dotted_catalog : list Field.t :=
  [ Field.mk "c" "a.b" "" "" "first" "INTEGER" "" "d" "e";
    Field.mk "b.c" "a" "" "" "second" "INTEGER" "" "d" "e" ].

Definition dotted_graph : Graph := buildRelationshipGraph dotted_catalog.

Definition dotted_matches : list (FieldMatch.t float) :=
  [ FieldMatch.mk "e" "d" "key" 100%float;
    FieldMatch.mk "b.c" "a" "second" 100%float;
    FieldMatch.mk "c" "a.b" "first" 100%float ].

(** ** Catalogs as CSV records *)

(** The field a record stands for: none for a record of fewer than nine
    columns, and otherwise the field made of its first nine columns. *)
Definition record_field (row : list string) : option Field.t :=
  if decide (length row < 9)%nat then None
  else Some (Field.mk (nth 0 row "") (nth 1 row "") (nth 2 row "") (nth 3 row "")
                      (nth 4 row "") (nth 5 row "") (nth 6 row "") (nth 7 row "")
                      (nth 8 row "")).

(** The CSV row of a field. *)
Definition row_of_field (f : Field.t) : list string :=
  [ Field.ColumnName f; Field.TableName f; Field.SystemAFieldMap f;
    Field.SystemBFieldMap f; Field.Description f; Field.FieldType f;
    Field.JoinKey f; Field.ForeignTable f; Field.ForeignKey f ].

(** The CSV file of the sample catalog: the header and one record for each
    field. *)
Definition sample_records : list (list string) :=
  [ "column_name"; "table_name"; "system_a_fieldmap"; "system_b_fieldmap";
    "field_description"; "field_type"; "join_key"; "foreign_table"; "foreign_key" ]
  :: (row_of_field <$> sample_catalog).

(** The joins of a path are edges stored in the graph. *)
Definition stored (g : Graph) (j : Join.t) : Prop :=
  exists a b, neighbors g a !! b = Some j.

(** * Proofs *)

Set Warnings "-clear-no-such-hyp".

(** ** Intent classification *)

(** C2. Whatever the lower-casing function, [identifyQueryType] lower-cases
    the description once and answers as the specification words it: COUNT
    with [distinct = false] when the lower-cased text contains "count",
    "how many" or "number of"; otherwise GROUP with [distinct = false] when
    it contains "group", "grouped" or "per"; otherwise SELECT, with
    [distinct] true exactly when it contains "distinct", "unique" or
    "different". Being a function of the description alone, it is
    deterministic. *)
Theorem identifyQueryType_spec (ToLower : string -> string) (description : string) :
  identifyQueryType ToLower description = Classify_spec ToLower description.
Proof.
  unfold identifyQueryType, Classify_spec, contains_any; simpl.
  rewrite !orb_false_r, !orb_assoc. reflexivity.
Qed.

(** ** Graph construction *)

Lemma neighbors_ensure_node g x a :
  neighbors (ensure_node g x) a = neighbors g a.
Proof.
  unfold ensure_node, neighbors.
  destruct (g !! x) eqn:E; [done|].
  destruct (decide (x = a)) as [->|Hne].
  - by rewrite lookup_insert_eq, E.
  - by rewrite lookup_insert_ne.
Qed.

Lemma neighbors_set_edge g x y j a b :
  neighbors (set_edge g x y j) a !! b =
  if decide (a = x /\ b = y) then Some j else neighbors g a !! b.
Proof.
  unfold set_edge. unfold neighbors at 1.
  destruct (decide (x = a)) as [->|Hne].
  - rewrite lookup_insert_eq. simpl.
    destruct (decide (y = b)) as [->|Hne'].
    + rewrite lookup_insert_eq. rewrite decide_True; done.
    + rewrite lookup_insert_ne by done. rewrite decide_False; [done|naive_solver].
  - rewrite lookup_insert_ne by done. rewrite decide_False; [done|naive_solver].
Qed.

Lemma neighbors_addRelationship g f a b :
  neighbors (addRelationship g f) a !! b =
  if has_foreign_key f then
    if decide (a = Field.ForeignTable f /\ b = Field.TableName f)
    then Some (backward_join f)
    else if decide (a = Field.TableName f /\ b = Field.ForeignTable f)
    then Some (forward_join f)
    else neighbors g a !! b
  else neighbors g a !! b.
Proof.
  unfold addRelationship. destruct (has_foreign_key f); [|done].
  rewrite !neighbors_set_edge, !neighbors_ensure_node. done.
Qed.

Lemma dom_ensure_node g x : dom (ensure_node g x) = {[x]} ∪ dom g.
Proof.
  unfold ensure_node. destruct (g !! x) eqn:E.
  - apply elem_of_dom_2 in E. set_solver.
  - by rewrite dom_insert_L.
Qed.

Lemma dom_set_edge g x y j : dom (set_edge g x y j) = {[x]} ∪ dom g.
Proof. unfold set_edge. by rewrite dom_insert_L. Qed.

Lemma dom_addRelationship g f :
  dom (addRelationship g f) =
  if has_foreign_key f
  then {[Field.TableName f; Field.ForeignTable f]} ∪ dom g else dom g.
Proof.
  unfold addRelationship. destruct (has_foreign_key f); [|done].
  rewrite !dom_set_edge, !dom_ensure_node. set_solver.
Qed.

Lemma buildRelationshipGraph_snoc fields f :
  buildRelationshipGraph (fields ++ [f]) =
  addRelationship (buildRelationshipGraph fields) f.
Proof. unfold buildRelationshipGraph. by rewrite foldl_app. Qed.

#[export] Instance declares_dec f a b : Decision (declares f a b).
Proof. unfold declares. apply _. Defined.

Lemma neighbors_empty a : neighbors ∅ a = ∅.
Proof. unfold neighbors. by rewrite lookup_empty. Qed.

Lemma snoc_split {A} (l l1 l2 : list A) (x y : A) :
  l ++ [x] = l1 ++ y :: l2 ->
  (l2 = [] /\ y = x /\ l1 = l) \/
  (exists l2', l2 = l2' ++ [x] /\ l = l1 ++ y :: l2').
Proof.
  intros E. destruct l2 as [|z l2 _] using rev_ind.
  - left. apply app_inj_tail in E as [-> ->]. done.
  - right. exists l2. rewrite app_comm_cons, app_assoc in E.
    apply app_inj_tail in E as [-> ->]. done.
Qed.

(** The edge stored for a pair is the one of its last declaration. *)
Lemma built_edge_last fields a b j :
  neighbors (buildRelationshipGraph fields) a !! b = Some j <->
  exists l1 f l2, fields = l1 ++ f :: l2 /\ declares f a b /\
    Forall (fun f' => ~ declares f' a b) l2 /\
    j = Join.mk a b (joinCondition f).
Proof.
  revert j. induction fields as [|f fields IH] using rev_ind; intros j.
  - unfold buildRelationshipGraph; simpl. rewrite neighbors_empty, lookup_empty.
    split; [done|]. intros (l1 & f & l2 & E & _). by destruct l1.
  - rewrite buildRelationshipGraph_snoc, neighbors_addRelationship.
    destruct (decide (declares f a b)) as [Hd|Hd].
    + destruct Hd as [Hfk Hd]. rewrite Hfk.
      assert (Hj : (if decide (a = Field.ForeignTable f /\ b = Field.TableName f)
        then Some (backward_join f)
        else if decide (a = Field.TableName f /\ b = Field.ForeignTable f)
        then Some (forward_join f) else neighbors (buildRelationshipGraph fields) a !! b)
        = Some (Join.mk a b (joinCondition f))).
      { repeat case_decide; unfold backward_join, forward_join; naive_solver. }
      rewrite Hj. split.
      * intros [= <-]. exists fields, f, []. split_and!; done.
      * intros (l1 & f' & l2 & E & Hd' & Hl2 & Ej).
        apply snoc_split in E as [(-> & -> & ->)|(l2' & -> & ->)]; [by subst|].
        apply Forall_app in Hl2 as [_ Hx]. rewrite Forall_singleton in Hx.
        exfalso. apply Hx. by split.
    + assert (Hj : (if has_foreign_key f then
          if decide (a = Field.ForeignTable f /\ b = Field.TableName f)
          then Some (backward_join f)
          else if decide (a = Field.TableName f /\ b = Field.ForeignTable f)
          then Some (forward_join f) else neighbors (buildRelationshipGraph fields) a !! b
        else neighbors (buildRelationshipGraph fields) a !! b)
        = neighbors (buildRelationshipGraph fields) a !! b).
      { destruct (has_foreign_key f) eqn:Hfk; [|done].
        repeat case_decide; try done; exfalso; apply Hd; split; auto. }
      rewrite Hj, IH. split.
      * intros (l1 & f' & l2 & -> & Hd' & Hl2 & Ej).
        exists l1, f', (l2 ++ [f]). rewrite <- app_assoc. split_and!; try done.
        apply Forall_app. split; [done|]. by apply Forall_singleton.
      * intros (l1 & f' & l2 & E & Hd' & Hl2 & Ej).
        apply snoc_split in E as [(-> & -> & ->)|(l2' & -> & ->)]; [done|].
        apply Forall_app in Hl2 as [Hl2 _].
        exists l1, f', l2'. done.
Qed.

Lemma declares_sym f a b : declares f a b -> declares f b a.
Proof. unfold declares. naive_solver. Qed.

Lemma dom_buildRelationshipGraph fields a :
  a ∈ dom (buildRelationshipGraph fields) <->
  exists f b, f ∈ fields /\ declares f a b.
Proof.
  induction fields as [|f fields IH] using rev_ind.
  - unfold buildRelationshipGraph; simpl. rewrite dom_empty_L.
    split; [set_solver|]. intros (f & b & Hin & _). by apply elem_of_nil in Hin.
  - rewrite buildRelationshipGraph_snoc, dom_addRelationship.
    split.
    + intros Hin. destruct (has_foreign_key f) eqn:Hfk.
      * apply elem_of_union in Hin as [Hin|Hin].
        -- apply elem_of_union in Hin as [Hin|Hin]; apply elem_of_singleton in Hin; subst.
           ++ exists f, (Field.ForeignTable f). split; [set_solver|]. split; auto.
           ++ exists f, (Field.TableName f). split; [set_solver|]. split; auto.
        -- apply IH in Hin as (f' & b & ? & ?). exists f', b. split; [set_solver|done].
      * apply IH in Hin as (f' & b & ? & ?). exists f', b. split; [set_solver|done].
    + intros (f' & b & Hin & Hd). apply elem_of_app in Hin as [Hin|Hin].
      * assert (a ∈ dom (buildRelationshipGraph fields)) by (apply IH; eauto).
        destruct (has_foreign_key f); set_solver.
      * apply list_elem_of_singleton in Hin as ->. destruct Hd as [-> Hd].
        set_solver.
Qed.

Lemma last_declaration (fields : list Field.t) (a b : string) (f : Field.t) :
  f ∈ fields -> declares f a b ->
  exists l1 f' l2, fields = l1 ++ f' :: l2 /\ declares f' a b /\
    Forall (fun f'' => ~ declares f'' a b) l2.
Proof.
  induction fields as [|x fields IH] using rev_ind; intros Hin Hd.
  - by apply elem_of_nil in Hin.
  - destruct (decide (declares x a b)) as [Hx|Hx].
    + exists fields, x, []. done.
    + apply elem_of_app in Hin as [Hin|Hin].
      * destruct (IH Hin Hd) as (l1 & f' & l2 & -> & Hd' & Hl2).
        exists l1, f', (l2 ++ [x]). rewrite <- app_assoc. split_and!; try done.
        apply Forall_app. split; [done|]. by apply Forall_singleton.
      * apply list_elem_of_singleton in Hin as ->. done.
Qed.

(** C5. For every catalog, in the graph [buildRelationshipGraph] makes:
    every field with a foreign table and a foreign key has an edge in both
    directions between its table and the foreign table, carrying one
    condition string; the condition is
    ["<table>.<column> = <foreignTable>.<foreignKey>"] of the last field
    declaring that pair of tables, so a later declaration overwrites an
    earlier one and the pair has a single edge; and every stored edge is
    labelled with the pair it is stored under, has its mirror image stored
    with the same condition, and comes from a declaration of the catalog. *)
Theorem buildRelationshipGraph_symmetric (fields : list Field.t) :
  let g := buildRelationshipGraph fields in
  (forall f, f ∈ fields -> has_foreign_key f = true ->
     exists c,
       neighbors g (Field.TableName f) !! Field.ForeignTable f
         = Some (Join.mk (Field.TableName f) (Field.ForeignTable f) c) /\
       neighbors g (Field.ForeignTable f) !! Field.TableName f
         = Some (Join.mk (Field.ForeignTable f) (Field.TableName f) c)) /\
  (forall l1 f l2, fields = l1 ++ f :: l2 -> has_foreign_key f = true ->
     Forall (fun f' => ~ declares f' (Field.TableName f) (Field.ForeignTable f)) l2 ->
     let c := Field.TableName f +:+ "." +:+ Field.ColumnName f +:+ " = " +:+
              Field.ForeignTable f +:+ "." +:+ Field.ForeignKey f in
     neighbors g (Field.TableName f) !! Field.ForeignTable f
       = Some (Join.mk (Field.TableName f) (Field.ForeignTable f) c) /\
     neighbors g (Field.ForeignTable f) !! Field.TableName f
       = Some (Join.mk (Field.ForeignTable f) (Field.TableName f) c)) /\
  (forall a b j, neighbors g a !! b = Some j ->
     Join.From j = a /\ Join.To j = b /\
     neighbors g b !! a = Some (Join.mk b a (Join.Condition j)) /\
     exists f, f ∈ fields /\ declares f a b /\ Join.Condition j = joinCondition f).
Proof.
  intros g.
  assert (Hlast : forall l1 f l2, fields = l1 ++ f :: l2 -> has_foreign_key f = true ->
     Forall (fun f' => ~ declares f' (Field.TableName f) (Field.ForeignTable f)) l2 ->
     neighbors g (Field.TableName f) !! Field.ForeignTable f
       = Some (Join.mk (Field.TableName f) (Field.ForeignTable f) (joinCondition f)) /\
     neighbors g (Field.ForeignTable f) !! Field.TableName f
       = Some (Join.mk (Field.ForeignTable f) (Field.TableName f) (joinCondition f))).
  { intros l1 f l2 E Hfk Hl2. split; apply built_edge_last; exists l1, f, l2.
    - split_and!; try done. split; auto.
    - split_and!; try done; [split; auto|].
      eapply Forall_impl; [exact Hl2|]. intros f' Hn Hd. apply Hn.
      by apply declares_sym. }
  split_and!.
  - intros f Hin Hfk.
    destruct (last_declaration fields (Field.TableName f) (Field.ForeignTable f) f)
      as (l1 & f' & l2 & E & Hd & Hl2); [done|split; auto|].
    exists (joinCondition f').
    split; apply built_edge_last; exists l1, f', l2; split_and!; try done.
    + by apply declares_sym.
    + eapply Forall_impl; [exact Hl2|]. intros f'' Hn Hd'. apply Hn.
      by apply declares_sym.
  - intros l1 f l2 E Hfk Hl2 c. by apply (Hlast l1 f l2).
  - intros a b j Hj. apply built_edge_last in Hj as (l1 & f & l2 & E & Hd & Hl2 & ->).
    simpl. split_and!; try done.
    + apply built_edge_last. exists l1, f, l2. split_and!; try done.
      * by apply declares_sym.
      * eapply Forall_impl; [exact Hl2|]. intros f'' Hn Hd'. apply Hn.
        by apply declares_sym.
    + exists f. split_and!; try done. rewrite E. set_solver.
Qed.

(** ** float64 comparison *)

Lemma compare_cont_Eq_Lt_trans p q r :
  Pos.compare_cont Eq p q = Lt -> Pos.compare_cont Eq q r = Lt ->
  Pos.compare_cont Eq p r = Lt.
Proof.
  change (Pos.compare_cont Eq p q) with (Pos.compare p q).
  change (Pos.compare_cont Eq q r) with (Pos.compare q r).
  change (Pos.compare_cont Eq p r) with (Pos.compare p r).
  rewrite !Pos.compare_lt_iff. lia.
Qed.

Lemma compare_cont_Eq_Gt_trans p q r :
  Pos.compare_cont Eq p q = Gt -> Pos.compare_cont Eq q r = Gt ->
  Pos.compare_cont Eq p r = Gt.
Proof.
  change (Pos.compare_cont Eq p q) with (Pos.compare p q).
  change (Pos.compare_cont Eq q r) with (Pos.compare q r).
  change (Pos.compare_cont Eq p r) with (Pos.compare p r).
  rewrite !Pos.compare_gt_iff. lia.
Qed.

Lemma SFcompare_Lt_swap x y :
  SFcompare x y = Some Lt -> SFcompare y x = Some Gt.
Proof.
  destruct x as [[]|[]| |[] m1 e1], y as [[]|[]| |[] m2 e2]; simpl; try congruence.
  - destruct (Z.compare_spec e1 e2), (Z.compare_spec e2 e1); try lia; try congruence.
    subst. change (Pos.compare_cont Eq m1 m2) with (Pos.compare m1 m2).
    change (Pos.compare_cont Eq m2 m1) with (Pos.compare m2 m1).
    rewrite (Pos.compare_antisym m1 m2).
    destruct (Pos.compare m1 m2); simpl; congruence.
  - destruct (Z.compare_spec e1 e2), (Z.compare_spec e2 e1); try lia; try congruence.
    subst. change (Pos.compare_cont Eq m1 m2) with (Pos.compare m1 m2).
    change (Pos.compare_cont Eq m2 m1) with (Pos.compare m2 m1).
    rewrite (Pos.compare_antisym m1 m2).
    destruct (Pos.compare m1 m2); simpl; congruence.
Qed.

Lemma SFcompare_Lt_trans x y z :
  SFcompare x y = Some Lt -> SFcompare y z = Some Lt -> SFcompare x z = Some Lt.
Proof.
  destruct x as [[]|[]| |[] m1 e1], y as [[]|[]| |[] m2 e2], z as [[]|[]| |[] m3 e3];
    simpl; try congruence.
  - destruct (Z.compare_spec e1 e2), (Z.compare_spec e2 e3), (Z.compare_spec e1 e3);
      try lia; try congruence; subst.
    change (Pos.compare_cont Eq m1 m2) with (Pos.compare m1 m2).
    change (Pos.compare_cont Eq m2 m3) with (Pos.compare m2 m3).
    change (Pos.compare_cont Eq m1 m3) with (Pos.compare m1 m3).
    destruct (Pos.compare_spec m1 m2), (Pos.compare_spec m2 m3), (Pos.compare_spec m1 m3);
      simpl; try congruence; lia.
  - destruct (Z.compare_spec e1 e2), (Z.compare_spec e2 e3), (Z.compare_spec e1 e3);
      try lia; try congruence; subst.
    change (Pos.compare_cont Eq m1 m2) with (Pos.compare m1 m2).
    change (Pos.compare_cont Eq m2 m3) with (Pos.compare m2 m3).
    change (Pos.compare_cont Eq m1 m3) with (Pos.compare m1 m3).
    destruct (Pos.compare_spec m1 m2), (Pos.compare_spec m2 m3), (Pos.compare_spec m1 m3);
      simpl; try congruence; lia.
Qed.

Lemma SFltb_Some_Lt x y : SFltb x y = true <-> SFcompare x y = Some Lt.
Proof.
  unfold SFltb. destruct (SFcompare x y) as [[]|]; split; congruence.
Qed.

#[export] Instance float64_ieee_order : Float64Order float.
Proof.
  split; simpl; intros x y.
  - rewrite !ltb_spec. intros Hxy%SFltb_Some_Lt%SFcompare_Lt_swap.
    unfold SFltb. by rewrite Hxy.
  - intros z. rewrite !ltb_spec, !SFltb_Some_Lt. apply SFcompare_Lt_trans.
Qed.

#[export] Instance float64_exact_order : Float64Order Q.
Proof.
  split; simpl; intros x y.
  - destruct (Qcompare_spec x y) as [E|L|G]; try congruence. intros _.
    destruct (Qcompare_spec y x) as [E'|L'|G']; try reflexivity.
    exfalso. apply (Qlt_irrefl x). by apply Qlt_trans with y.
  - intros z. destruct (Qcompare_spec x y) as [E|L|G]; try congruence. intros _.
    destruct (Qcompare_spec y z) as [E'|L'|G']; try congruence. intros _.
    destruct (Qcompare_spec x z) as [E''|L''|G'']; try reflexivity; exfalso.
    + apply (Qlt_irrefl x). rewrite E'' at 2. by apply Qlt_trans with y.
    + apply (Qlt_irrefl x). apply Qlt_trans with y; [done|]. by apply Qlt_trans with z.
Qed.

(** ** Sorting and matching *)

Section SortProofs.
Context {F : Type} `{Float64Order F}.
Implicit Types (ms : list (FieldMatch.t F)) (i j : nat).

Lemma swap_if_less_length i j ms : length (swap_if_less i j ms) = length ms.
Proof.
  unfold swap_if_less. destruct (ms !! i), (ms !! j); try done.
  case_match; [|done]. by rewrite !length_insert.
Qed.

Lemma swap_if_less_perm i j ms : swap_if_less i j ms ≡ₚ ms.
Proof.
  unfold swap_if_less. destruct (ms !! i) eqn:Ei, (ms !! j) eqn:Ej; try done.
  case_match; [|done]. by apply Permutation_insert_swap.
Qed.

Lemma swap_if_less_other i j ms p :
  p <> i -> p <> j -> swap_if_less i j ms !! p = ms !! p.
Proof.
  intros Hi Hj. unfold swap_if_less.
  destruct (ms !! i), (ms !! j); try done. case_match; [|done].
  rewrite !list_lookup_insert_ne; done.
Qed.

(** What a swap step leaves at the two positions it compares. *)
Lemma swap_if_less_at i j ms a b :
  i <> j -> ms !! i = Some a -> ms !! j = Some b ->
  (f64_lt (FieldMatch.MatchScore a) (FieldMatch.MatchScore b) = true /\
   swap_if_less i j ms !! i = Some b /\ swap_if_less i j ms !! j = Some a) \/
  (f64_lt (FieldMatch.MatchScore a) (FieldMatch.MatchScore b) = false /\
   swap_if_less i j ms = ms).
Proof.
  intros Hne Ei Ej. unfold swap_if_less. rewrite Ei, Ej.
  apply lookup_lt_Some in Ei as Hi. apply lookup_lt_Some in Ej as Hj.
  destruct (f64_lt _ _) eqn:E; [left|right; done].
  split_and!; [done| |].
  - rewrite list_lookup_insert_ne by done.
    by rewrite list_lookup_insert_eq.
  - rewrite list_lookup_insert_eq; [done|]. by rewrite length_insert.
Qed.

Lemma inner_upto_S i k ms :
  inner_upto i (S k) ms = swap_if_less i (S i + k) (inner_upto i k ms).
Proof. unfold inner_upto. by rewrite seq_S, foldl_snoc. Qed.

Lemma inner_upto_length i k ms : length (inner_upto i k ms) = length ms.
Proof.
  induction k as [|k IH]; [done|].
  by rewrite inner_upto_S, swap_if_less_length.
Qed.

Lemma inner_upto_perm i k ms : inner_upto i k ms ≡ₚ ms.
Proof.
  induction k as [|k IH]; [done|].
  by rewrite inner_upto_S, swap_if_less_perm.
Qed.

Lemma inner_upto_before i k ms p :
  (p < i)%nat -> inner_upto i k ms !! p = ms !! p.
Proof.
  intros Hp. induction k as [|k IH]; [done|].
  rewrite inner_upto_S, swap_if_less_other; [done|lia..].
Qed.

(** Elements at or after [i] stay at or after [i]. *)
Lemma inner_upto_from i k ms b y :
  (i <= b)%nat -> inner_upto i k ms !! b = Some y ->
  exists b', (i <= b')%nat /\ ms !! b' = Some y.
Proof.
  revert b y. induction k as [|k IH]; intros b y Hb Hy; [eauto|].
  rewrite inner_upto_S in Hy.
  set (ms' := inner_upto i k ms) in *.
  destruct (ms' !! i) as [a0|] eqn:Ei; cycle 1.
  { unfold swap_if_less in Hy. rewrite Ei in Hy. eauto. }
  destruct (ms' !! (S i + k)%nat) as [b0|] eqn:Ej; cycle 1.
  { unfold swap_if_less in Hy. rewrite Ei, Ej in Hy. eauto. }
  destruct (swap_if_less_at i (S i + k) ms' a0 b0) as [(_ & Hi' & Hj')|(_ & E)];
    [lia|done|done| |].
  - destruct (decide (b = i)) as [->|Hbi].
    { rewrite Hi' in Hy. injection Hy as <-. apply (IH (S i + k)%nat); [lia|done]. }
    destruct (decide (b = (S i + k)%nat)) as [->|Hbj].
    { rewrite Hj' in Hy. injection Hy as <-. apply (IH i); [lia|done]. }
    rewrite swap_if_less_other in Hy by done. by apply (IH b).
  - rewrite E in Hy. by apply (IH b).
Qed.

(** After [k] iterations the score at [i] is not below any of the [k]
    scores after it. *)
Lemma inner_upto_max i k ms b :
  (i < b)%nat -> (b < S i + k)%nat -> not_less (inner_upto i k ms) i b.
Proof.
  revert b. induction k as [|k IH]; intros b Hib Hbk; [lia|].
  rewrite inner_upto_S. set (ms' := inner_upto i k ms) in *.
  intros x y Hx Hy.
  destruct (ms' !! i) as [a0|] eqn:Ei; cycle 1.
  { unfold swap_if_less in Hx. rewrite Ei in Hx. congruence. }
  destruct (ms' !! (S i + k)%nat) as [b0|] eqn:Ej; cycle 1.
  { unfold swap_if_less in Hx, Hy. rewrite Ei, Ej in Hx, Hy.
    apply (IH b); [lia| |done..].
    apply lookup_lt_Some in Hy. apply lookup_ge_None in Ej. lia. }
  destruct (swap_if_less_at i (S i + k) ms' a0 b0) as [(Hlt & Hi' & Hj')|(Hnlt & E)];
    [lia|done|done| |].
  - rewrite Hi' in Hx. injection Hx as <-.
    destruct (decide (b = (S i + k)%nat)) as [->|Hbj].
    + rewrite Hj' in Hy. injection Hy as <-. by apply f64_lt_asym.
    + rewrite swap_if_less_other in Hy by lia.
      destruct (f64_lt (FieldMatch.MatchScore b0) (FieldMatch.MatchScore y)) eqn:E;
        [|done].
      assert (f64_lt (FieldMatch.MatchScore a0) (FieldMatch.MatchScore y) = true)
        by (by eapply f64_lt_trans).
      assert (f64_lt (FieldMatch.MatchScore a0) (FieldMatch.MatchScore y) = false)
        by (apply (IH b); [lia|lia|done|done]).
      congruence.
  - rewrite E in Hx, Hy.
    destruct (decide (b = (S i + k)%nat)) as [->|Hbj].
    + congruence.
    + apply (IH b); [lia|lia|done|done].
Qed.

Lemma sort_inner_eq i ms : sort_inner i ms = inner_upto i (length ms - S i) ms.
Proof. done. Qed.

Lemma outer_upto_S n ms :
  outer_upto (S n) ms = sort_inner n (outer_upto n ms).
Proof. unfold outer_upto. by rewrite seq_S, foldl_snoc. Qed.

Lemma outer_upto_length n ms : length (outer_upto n ms) = length ms.
Proof.
  induction n as [|n IH]; [done|].
  by rewrite outer_upto_S, sort_inner_eq, inner_upto_length.
Qed.

Lemma outer_upto_perm n ms : outer_upto n ms ≡ₚ ms.
Proof.
  induction n as [|n IH]; [done|].
  by rewrite outer_upto_S, sort_inner_eq, inner_upto_perm.
Qed.

Lemma outer_upto_sorted n ms a b :
  (a < b)%nat -> (a < n)%nat -> not_less (outer_upto n ms) a b.
Proof.
  revert a b. induction n as [|n IH]; intros a b Hab Han; [lia|].
  rewrite outer_upto_S, sort_inner_eq. set (ms' := outer_upto n ms) in *.
  clearbody ms'.
  intros x y Hx Hy.
  destruct (decide (a = n)) as [->|Hne].
  - apply lookup_lt_Some in Hy as Hlen. rewrite inner_upto_length in Hlen.
    eapply (inner_upto_max n (length ms' - S n) ms' b); [lia|lia|done..].
  - rewrite inner_upto_before in Hx by lia.
    destruct (decide (b < n)%nat) as [Hbn|Hbn].
    + rewrite inner_upto_before in Hy by lia. apply (IH a b); [lia|lia|done..].
    + apply inner_upto_from in Hy as (b' & Hb' & Hy); [|lia].
      apply (IH a b'); [lia|lia|done..].
Qed.

Lemma sortMatchesByScore_perm ms : sortMatchesByScore ms ≡ₚ ms.
Proof. apply outer_upto_perm. Qed.

Lemma sortMatchesByScore_sorted ms a b :
  (a < b)%nat -> not_less (sortMatchesByScore ms) a b.
Proof.
  intros Hab x y Hx Hy.
  apply lookup_lt_Some in Hy as Hlen.
  unfold sortMatchesByScore in *. fold (outer_upto (length ms) ms) in *.
  rewrite outer_upto_length in Hlen.
  apply (outer_upto_sorted (length ms) ms a b); [done|lia|done..].
Qed.
End SortProofs.

Section MatcherProofs.
Context {F : Type} `{Float64Order F}.
Variable ToLower : string -> string.

Lemma count_loop (P : string -> bool) (l : list string) (c : Z) :
  foldl (fun (c : Z) k => if P k then c + 1 else c) c l =
  c + Z.of_nat (length (List.filter P l)).
Proof.
  revert c. induction l as [|k l IH]; intros c; simpl; [lia|].
  rewrite IH. destruct (P k); simpl; lia.
Qed.

Lemma calculateMatchScore_spec description keywords :
  calculateMatchScore ToLower description keywords =
  score_spec ToLower description keywords.
Proof.
  unfold calculateMatchScore, score_spec, keyword_hits.
  destruct keywords as [|k ks]; [done|].
  by rewrite count_loop, Z.add_0_l.
Qed.

Lemma collectMatches_spec fields keywords threshold :
  collectMatches ToLower fields keywords threshold =
  field_match ToLower keywords <$>
    List.filter (qualifies ToLower keywords threshold) fields.
Proof.
  unfold collectMatches.
  enough (Hgen : forall acc,
    foldl (fun matches field =>
             let score := calculateMatchScore ToLower (Field.Description field) keywords in
             if f64_lt score threshold then matches
             else matches ++ [FieldMatch.mk (Field.ColumnName field)
                                (Field.TableName field) (Field.Description field) score])
          acc fields =
    acc ++ (field_match ToLower keywords <$>
              List.filter (qualifies ToLower keywords threshold) fields))
    by apply (Hgen []).
  induction fields as [|f fields IH]; intros acc; simpl.
  - by rewrite app_nil_r.
  - rewrite IH. unfold qualifies at 2. rewrite calculateMatchScore_spec.
    destruct (f64_lt _ threshold); simpl; [done|].
    by rewrite <- app_assoc.
Qed.

Lemma collectMatches_above fields keywords threshold m :
  m ∈ collectMatches ToLower fields keywords threshold ->
  f64_lt (FieldMatch.MatchScore m) threshold = false.
Proof.
  rewrite collectMatches_spec. intros (f & -> & Hf)%list_elem_of_fmap.
  apply list_elem_of_In, filter_In in Hf as [_ Hq].
  unfold qualifies in Hq. simpl. by destruct (f64_lt _ threshold).
Qed.

Lemma FindFieldMatches_negative_limit fields keywords threshold maxMatches :
  maxMatches < 0 ->
  FindFieldMatches ToLower fields keywords threshold maxMatches
  = Panicked "slice bounds out of range".
Proof.
  intros Hneg. unfold FindFieldMatches.
  destruct (Z.gtb_spec (Z.of_nat (length (sortMatchesByScore
    (collectMatches ToLower fields keywords threshold)))) maxMatches); [|lia].
  destruct (Z.ltb_spec maxMatches 0); [done|lia].
Qed.

(** C3 (amended). For every keyword list and threshold: for a non-negative
    [maxMatches], [FindFieldMatches] returns the first [maxMatches] entries
    of a ranking, that is, of an arrangement of exactly the catalog fields
    whose score is not below the threshold, each scored (keywords occurring
    in the lower-cased description) / (number of keywords) * 100, and 0 for
    no keyword, in which no score is exceeded by a later one; so no returned
    score is below the threshold and min([maxMatches], number of such
    fields) matches are returned. For a negative [maxMatches] the slice
    [matches[:maxMatches]] is out of range and the call panics. *)
Theorem FindFieldMatches_ranked fields keywords threshold maxMatches :
  (0 <= maxMatches ->
   exists ranked,
     ranked ≡ₚ
       field_match ToLower keywords <$>
         List.filter (qualifies ToLower keywords threshold) fields /\
     (forall i j a b, (i < j)%nat -> ranked !! i = Some a -> ranked !! j = Some b ->
        f64_lt (FieldMatch.MatchScore a) (FieldMatch.MatchScore b) = false) /\
     (forall m, m ∈ ranked ->
        f64_lt (FieldMatch.MatchScore m) threshold = false) /\
     FindFieldMatches ToLower fields keywords threshold maxMatches
     = Returned (take (Z.to_nat maxMatches) ranked) /\
     length (take (Z.to_nat maxMatches) ranked)
     = Nat.min (Z.to_nat maxMatches)
               (length (List.filter (qualifies ToLower keywords threshold) fields))) /\
  (maxMatches < 0 ->
   FindFieldMatches ToLower fields keywords threshold maxMatches
   = Panicked "slice bounds out of range").
Proof.
  split; [|apply FindFieldMatches_negative_limit].
  intros Hmax. unfold FindFieldMatches.
  set (all := collectMatches ToLower fields keywords threshold).
  set (sorted := sortMatchesByScore all).
  assert (Hperm : sorted ≡ₚ all) by apply sortMatchesByScore_perm.
  assert (Hlen : length sorted
                 = length (List.filter (qualifies ToLower keywords threshold) fields)).
  { rewrite Hperm. unfold all. by rewrite collectMatches_spec, length_fmap. }
  exists sorted. split_and!.
  - rewrite Hperm. unfold all. by rewrite collectMatches_spec.
  - intros i j a b Hij Ha Hb. by apply (sortMatchesByScore_sorted all i j Hij).
  - intros m Hm. rewrite Hperm in Hm. by eapply collectMatches_above.
  - destruct (Z.gtb_spec (Z.of_nat (length sorted)) maxMatches) as [Hgt|Hle].
    + destruct (Z.ltb_spec maxMatches 0) as [Hneg|_]; [lia|done].
    + rewrite take_ge by lia. done.
  - by rewrite length_take, Hlen.
Qed.
End MatcherProofs.


Lemma FindFieldMatches_ranked_witness :
  exists ranked,
    ranked ≡ₚ
      field_match asciiToLower ["user"; "order"] <$>
        List.filter (qualifies asciiToLower ["user"; "order"] 30%float) sample_catalog /\
    (forall i j a b, (i < j)%nat -> ranked !! i = Some a -> ranked !! j = Some b ->
       f64_lt (FieldMatch.MatchScore a) (FieldMatch.MatchScore b) = false) /\
    (forall m, m ∈ ranked ->
       f64_lt (FieldMatch.MatchScore m) 30%float = false) /\
    FindFieldMatches asciiToLower sample_catalog ["user"; "order"] 30%float 2
    = Returned (take (Z.to_nat 2) ranked) /\
    length (take (Z.to_nat 2) ranked)
    = Nat.min (Z.to_nat 2)
              (length (List.filter (qualifies asciiToLower ["user"; "order"] 30%float)
                                   sample_catalog)).
Proof.
  apply (proj1 (FindFieldMatches_ranked asciiToLower sample_catalog ["user"; "order"]
                  30%float 2)).
  lia.
Defined.

(** C3 (counterexample). With a negative [maxMatches] the call does not
    return a truncated list: it panics. *)
Lemma FindFieldMatches_negative_limit_panics :
  FindFieldMatches asciiToLower sample_catalog ["user"; "order"] 30%float (-1)
  = Panicked "slice bounds out of range".
Proof. vm_compute. reflexivity. Qed.

(** ** Confidence *)

Lemma score_sum_cons (m : FieldMatch.t Q) (ms : list (FieldMatch.t Q)) :
  score_sum (m :: ms) = (FieldMatch.MatchScore m + score_sum ms)%Q.
Proof. reflexivity. Qed.

Lemma total_loop (matches : list (FieldMatch.t Q)) (total : Q) :
  (foldl (fun total m => f64_add total (FieldMatch.MatchScore m)) total matches
   == total + score_sum matches)%Q.
Proof.
  revert total. induction matches as [|m ms IH]; intros total.
  - simpl. symmetry. apply Qplus_0_r.
  - cbn [foldl]. rewrite IH, score_sum_cons. symmetry. apply Qplus_assoc.
Qed.

Lemma Min_exact (a b : Q) : (Min a b == Qmin a b)%Q.
Proof.
  unfold Min; simpl. destruct (Qcompare_spec a b) as [E|L|G].
  - rewrite E. symmetry. apply Q.min_id.
  - symmetry. apply Q.min_l. by apply Qlt_le_weak.
  - symmetry. apply Q.min_r. by apply Qlt_le_weak.
Qed.

Lemma score_sum_bounds (matches : list (FieldMatch.t Q)) :
  (forall m, m ∈ matches ->
     (0 <= FieldMatch.MatchScore m)%Q /\ (FieldMatch.MatchScore m <= 100)%Q) ->
  (0 <= score_sum matches)%Q /\
  (score_sum matches <= 100 * inject_Z (Z.of_nat (length matches)))%Q.
Proof.
  induction matches as [|m ms IH]; intros Hin.
  - unfold score_sum; simpl. split; [apply Qle_refl|]. 
    change (inject_Z 0) with 0%Q. rewrite Qmult_0_r. apply Qle_refl.
  - destruct IH as [IH0 IH1]; [intros; apply Hin; set_solver|].
    destruct (Hin m) as [Hm0 Hm1]; [set_solver|].
    rewrite score_sum_cons. simpl length.
    rewrite Nat2Z.inj_succ, <- Z.add_1_r, inject_Z_plus.
    change (inject_Z 1) with 1%Q. split; lra.
Qed.




(** ** Join paths *)

Lemma reach_cons g n a b c : edge g a b -> reach g b n c -> reach g a (S n) c.
Proof.
  intros Hab Hbc. induction Hbc as [|n c d Hbc IH Hcd].
  - eapply reach_S; [apply reach_O|done].
  - eapply reach_S; [by apply IH|done].
Qed.

Lemma walk_snoc g a p b c : walk g a p b -> edge g b c -> walk g a (p ++ [c]) c.
Proof.
  intros Hw Hbc. induction Hw as [a|a b p c' Hab Hw IH]; simpl.
  - apply walk_cons with c; [done|apply walk_one].
  - apply walk_cons with b; [done|by apply IH].
Qed.

Lemma walk_reach g a p b : walk g a p b -> reach g a (length p - 1) b.
Proof.
  induction 1 as [a|a b p c Hab Hw IH]; simpl; [apply reach_O|].
  rewrite Nat.sub_0_r. destruct p as [|x p]; [inversion Hw|].
  simpl in IH. rewrite Nat.sub_0_r in IH. by eapply reach_cons.
Qed.

Lemma join_path_reach g a js b : join_path g a js b -> reach g a (length js) b.
Proof.
  induction 1 as [a|a j js c Hj Hfrom Hjs IH]; simpl; [apply reach_O|].
  eapply reach_cons; [|exact IH]. unfold edge. by rewrite Hj.
Qed.

Lemma walk_join_path g a p b :
  labelled g -> walk g a p b ->
  join_path g a (path_to_joins g p) b /\ length (path_to_joins g p) = (length p - 1)%nat.
Proof.
  intros Hlab. induction 1 as [a|a b p c Hab Hw IH]; simpl.
  - split; [apply join_path_nil|done].
  - destruct p as [|x p]; [inversion Hw|].
    assert (x = b) as -> by (by inversion Hw).
    destruct IH as [IH Hlen]. destruct Hab as [j Hj].
    assert (Hedge : edge_at g a b = j) by (unfold edge_at; by rewrite Hj).
    destruct (Hlab a b j Hj) as [Hfrom Hto]. rewrite Hedge. split.
    + apply join_path_cons; [by rewrite Hto|done|by rewrite Hto].
    + simpl in *. rewrite Hlen. lia.
Qed.

Lemma elem_of_range_keys {A} (ord : MapOrder) (m : gmap string A) (k : string) :
  valid_order ord -> k ∈ range_keys ord m <-> is_Some (m !! k).
Proof.
  intros Hord. unfold range_keys. rewrite (Hord [] _).
  rewrite <- elem_of_dom, dom_alt, elem_of_list_to_set. done.
Qed.

Lemma valid_order_id : valid_order ord_id.
Proof. intros p l. done. Qed.

Lemma valid_order_rev : valid_order ord_rev.
Proof. intros p l. unfold ord_rev. symmetry. apply Permutation_rev. Qed.

Lemma valid_order_sub i ord : valid_order ord -> valid_order (sub i ord).
Proof. intros Hord p l. apply Hord. Qed.

Lemma edge_graph_nodes g a b : edge g a b -> b ∈ graph_nodes g.
Proof.
  unfold edge, neighbors, graph_nodes. intros Hb.
  destruct (g !! a) as [inner|] eqn:Ea; simpl in Hb.
  - apply elem_of_union_r, elem_of_union_list. exists (dom inner).
    split; [|by apply elem_of_dom].
    apply list_elem_of_fmap. exists inner. split; [done|].
    apply list_elem_of_fmap. exists (a, inner). split; [done|].
    by apply elem_of_map_to_list.
  - rewrite lookup_empty in Hb. by destruct Hb.
Qed.

Section BFS.
Variables (g : Graph) (s e : string).
Local Abbreviation bfs_inv := (bfs_inv g s e).
Local Abbreviation bfs_post := (bfs_post g s e).
Local Abbreviation universe := (universe g s).

Lemma bfs_inv_init :
  bfs_inv [s] (mk_bfs [s] {[s := true]} ∅) ∅ {[s := 0%nat]} 0 [s] [].
Proof.
  split; simpl.
  - intros k. unfold is_visited; simpl. rewrite dom_singleton_L, elem_of_singleton.
    destruct (decide (k = s)) as [->|Hne].
    + by rewrite lookup_singleton_eq.
    + rewrite lookup_singleton_ne by done. simpl. split; [done|congruence].
  - by rewrite lookup_singleton_eq.
  - intros v Hv Hne. rewrite dom_singleton_L, elem_of_singleton in Hv. done.
  - intros v [u Hu]. by rewrite lookup_empty in Hu.
  - intros v d Hv. apply lookup_singleton_Some in Hv as [_ <-]. lia.
  - intros v. rewrite dom_singleton_L. set_solver.
  - set_solver.
  - apply NoDup_singleton.
  - done.
  - intros q Hq%list_elem_of_singleton. subst. by rewrite lookup_singleton_eq.
  - intros q Hq. by apply elem_of_nil in Hq.
  - set_solver.
  - set_solver.
  - set_solver.
  - intros v. rewrite dom_singleton_L. unfold universe. set_solver.
Qed.

(** The head of a non-empty queue can be taken to lie in the lower layer. *)
Lemma bfs_inv_normalize c rest st P dm d0 lo hi :
  bfs_inv (c :: rest) st P dm d0 lo hi ->
  exists d0' lo' hi', bfs_inv (c :: rest) st P dm d0' (c :: lo') hi'.
Proof.
  intros [].
  destruct lo as [|c' lo].
  - simpl in *. subst hi. exists (S d0), rest, [].
    split; try done.
    + by rewrite app_nil_r.
    + intros q Hq. by apply elem_of_nil in Hq.
    + intros p Hp. destruct (inv_done_depth0 p Hp) as (d & Hd & Hle).
      exists d. split; [done|lia].
  - simpl in *. injection inv_layers0 as <- Hrest.
    exists d0, lo, hi. split; try done. simpl. by rewrite Hrest.
Qed.

Lemma is_visited_dom st P dm d0 lo hi Q k :
  bfs_inv Q st P dm d0 lo hi -> is_visited st k = false -> dm !! k = None.
Proof.
  intros Hinv Hk. apply not_elem_of_dom. intros Hin.
  apply (inv_visited Hinv) in Hin. congruence.
Qed.

(** One iteration of the loop over the neighbours of [c]. *)
Lemma visit_inv c st P dm d0 lo hi n :
  bfs_inv (c :: queue st) st P dm d0 (c :: lo) hi ->
  edge g c n ->
  exists dm' hi',
    bfs_inv (c :: queue (visit c st n)) (visit c st n) P dm' d0 (c :: lo) hi' /\
    dm ⊆ dm' /\ n ∈ dom dm'.
Proof.
  intros Hinv Hedge. unfold visit.
  destruct (is_visited st n) eqn:Hvis.
  { exists dm, hi. split_and!; [done|done|]. by apply (inv_visited Hinv). }
  pose proof (is_visited_dom _ _ _ _ _ _ _ _ Hinv Hvis) as Hnone.
  destruct Hinv. simpl.
  assert (Hc : dm !! c = Some d0) by (apply inv_lo0; set_solver).
  assert (Hcn : c <> n) by congruence.
  assert (Hpn : parents st !! n = None).
  { destruct (parents st !! n) eqn:E; [|done].
    assert (n ∈ dom dm) by (apply inv_parents_dom0; eauto).
    apply elem_of_dom in H as [? ?]. congruence. }
  assert (HnP : n ∉ P).
  { intros Hin. assert (n ∈ dom dm) by (apply inv_split0; auto).
    apply elem_of_dom in H as [? ?]. congruence. }
  assert (HnQ : n ∉ c :: queue st).
  { intros Hin. assert (n ∈ dom dm) by (apply inv_split0; auto).
    apply elem_of_dom in H as [? ?]. congruence. }
  exists (<[n := S d0]> dm), (hi ++ [n]). split_and!.
  - split; simpl.
    + intros k. unfold is_visited; simpl. rewrite dom_insert_L.
      destruct (decide (n = k)) as [->|Hne].
      * rewrite lookup_insert_eq. simpl. set_solver.
      * rewrite lookup_insert_ne by done. rewrite elem_of_union, elem_of_singleton.
        fold (is_visited st k). rewrite inv_visited0. naive_solver.
    + rewrite lookup_insert_ne; [done|]. intros ->. congruence.
    + intros v Hv Hvs. rewrite dom_insert_L, elem_of_union, elem_of_singleton in Hv.
      destruct (decide (v = n)) as [->|Hne].
      * exists c, d0. rewrite !lookup_insert_eq. rewrite lookup_insert_ne by done.
        done.
      * destruct Hv as [?|Hv]; [done|].
        destruct (inv_parent0 v Hv Hvs) as (u & d & Hu & He & Hdu & Hdv).
        exists u, d. rewrite !lookup_insert_ne; [done|done| |done].
        intros ->. congruence.
    + intros v Hv. rewrite dom_insert_L, elem_of_union, elem_of_singleton.
      destruct (decide (v = n)) as [->|Hne]; [by left|right].
      rewrite lookup_insert_ne in Hv by done. by apply inv_parents_dom0.
    + intros v d Hv. rewrite map_size_insert_None by done.
      destruct (decide (v = n)) as [->|Hne].
      * rewrite lookup_insert_eq in Hv. injection Hv as <-.
        specialize (inv_depth_bound0 c d0 Hc). lia.
      * rewrite lookup_insert_ne in Hv by done.
        specialize (inv_depth_bound0 v d Hv). lia.
    + intros v. rewrite dom_insert_L, elem_of_union, elem_of_singleton.
      rewrite inv_split0. set_solver.
    + intros q Hq. rewrite elem_of_cons, elem_of_app, list_elem_of_singleton in Hq.
      destruct Hq as [->|[Hq| ->]]; [apply inv_fresh0; set_solver| |done].
      apply inv_fresh0. set_solver.
    + change (NoDup ((c :: queue st) ++ [n])). apply NoDup_app. split_and!; [done| |apply NoDup_singleton].
      intros x Hx Hx'%list_elem_of_singleton. subst. done.
    + change ((c :: queue st) ++ [n] = (c :: lo) ++ hi ++ [n]).
      rewrite inv_layers0. by rewrite <- app_assoc.
    + intros q Hq. rewrite lookup_insert_ne; [by apply inv_lo0|].
      intros ->. apply HnQ. rewrite inv_layers0. set_solver.
    + intros q Hq. rewrite elem_of_app, list_elem_of_singleton in Hq.
      destruct Hq as [Hq| ->]; [|by rewrite lookup_insert_eq].
      rewrite lookup_insert_ne; [by apply inv_hi0|].
      intros ->. apply HnQ. rewrite inv_layers0. set_solver.
    + intros p Hp. destruct (inv_done_depth0 p Hp) as (d & Hd & Hle).
      exists d. rewrite lookup_insert_ne; [done|]. intros ->. done.
    + intros u v Hu Huv. destruct (inv_closed0 u v Hu Huv) as (du & dv & Hdu & Hdv & Hle).
      exists du, dv. rewrite !lookup_insert_ne; [done| |]; intros ->; congruence.
    + done.
    + intros v Hv. rewrite dom_insert_L, elem_of_union, elem_of_singleton in Hv.
      destruct Hv as [->|Hv]; [|by apply inv_universe0].
      unfold universe. apply elem_of_union_r. by eapply edge_graph_nodes.
  - by apply insert_subseteq.
  - rewrite dom_insert_L. set_solver.
Qed.

Lemma fold_visit_inv c P d0 lo ns : forall st dm hi,
  bfs_inv (c :: queue st) st P dm d0 (c :: lo) hi ->
  Forall (edge g c) ns ->
  exists dm' hi',
    bfs_inv (c :: queue (foldl (visit c) st ns)) (foldl (visit c) st ns)
            P dm' d0 (c :: lo) hi' /\
    dm ⊆ dm' /\ forall n, n ∈ ns -> n ∈ dom dm'.
Proof.
  induction ns as [|n ns IH]; intros st dm hi Hinv Hedges; simpl.
  - exists dm, hi. split_and!; [done|done|]. intros n Hn. by apply elem_of_nil in Hn.
  - apply Forall_cons in Hedges as [Hn Hns].
    destruct (visit_inv c st P dm d0 lo hi n Hinv Hn) as (dm1 & hi1 & Hinv1 & Hsub1 & Hn1).
    destruct (IH _ _ _ Hinv1 Hns) as (dm2 & hi2 & Hinv2 & Hsub2 & Hns2).
    exists dm2, hi2. split_and!; [done|by etrans|].
    intros n' Hn'. apply elem_of_cons in Hn' as [->|Hn']; [|by apply Hns2].
    by apply (subseteq_dom _ _ Hsub2).
Qed.

(** Once every neighbour of the head is visited, the head is done. *)
Lemma finish_inv c rest st P dm d0 lo hi :
  bfs_inv (c :: rest) st P dm d0 (c :: lo) hi ->
  c <> e ->
  (forall n, edge g c n -> n ∈ dom dm) ->
  bfs_inv rest st (P ∪ {[c]}) dm d0 lo hi.
Proof.
  intros [] Hce Hall.
  assert (Hc : dm !! c = Some d0) by (apply inv_lo0; set_solver).
  apply NoDup_cons in inv_nodup0 as [Hcrest Hnodup].
  simpl in inv_layers0. injection inv_layers0 as Hrest.
  split; try done.
  - intros v. rewrite inv_split0. set_solver.
  - intros q Hq. rewrite elem_of_union, elem_of_singleton.
    intros [Hin| ->]; [|done]. eapply inv_fresh0; [|done]. set_solver.
  - intros q Hq. apply inv_lo0. set_solver.
  - intros p Hp. apply elem_of_union in Hp as [Hp|Hp%elem_of_singleton].
    + by apply inv_done_depth0.
    + subst. exists d0. split; [done|lia].
  - intros u v Hu Huv. apply elem_of_union in Hu as [Hu|Hu%elem_of_singleton].
    + by apply inv_closed0.
    + subst u. exists d0. specialize (Hall v Huv).
      apply inv_split0 in Hall as [HvP|HvQ].
      * destruct (inv_done_depth0 v HvP) as (d & Hd & Hle).
        exists d. split_and!; [done|done|lia].
      * rewrite Hrest in HvQ. change (v ∈ (c :: lo) ++ hi) in HvQ.
        apply elem_of_app in HvQ as [Hv|Hv].
        -- exists d0. split_and!; [done|by apply inv_lo0|lia].
        -- exists (S d0). split_and!; [done|by apply inv_hi0|lia].
  - rewrite elem_of_union, elem_of_singleton. intros [?|?]; [done|congruence].
Qed.

(** A table reachable in [n] edges is visited at depth at most [n], unless
    a table still queued, of depth at most [n], lies on the way. *)
Lemma reach_visited Q st P dm d0 lo hi n v :
  bfs_inv Q st P dm d0 lo hi -> reach g s n v ->
  exists w dw, dm !! w = Some dw /\ (dw <= n)%nat /\ (w = v \/ w ∈ Q).
Proof.
  intros Hinv. induction 1 as [|n b c Hab IH Hbc].
  - exists s, 0%nat. split_and!; [|lia|by left].
    (* the start *)
    by apply (inv_start Hinv).
  - destruct IH as (w & dw & Hw & Hle & [->|HwQ]).
    + assert (Hb : b ∈ dom dm) by (apply elem_of_dom; eauto).
      apply (inv_split Hinv) in Hb as [HbP|HbQ].
      * destruct (inv_closed Hinv b c HbP Hbc)
          as (du & dv & Hdu & Hdv & Hle').
        exists c, dv. split_and!; [done| |by left].
        assert (du = dw) by congruence. lia.
      * exists b, dw. split_and!; [done|lia|by right].
    + exists w, dw. split_and!; [done|lia|by right].
Qed.

(** The head of the queue has the least depth in the queue. *)
Lemma head_least c rest st P dm d0 lo hi q dq :
  bfs_inv (c :: rest) st P dm d0 lo hi ->
  q ∈ c :: rest -> dm !! q = Some dq ->
  exists dc, dm !! c = Some dc /\ (dc <= dq)%nat.
Proof.
  intros Hinv Hq Hdq.
  apply bfs_inv_normalize in Hinv as (d0' & lo' & hi' & []).
  assert (Hc : dm !! c = Some d0') by (apply inv_lo0; set_solver).
  exists d0'. split; [done|].
  rewrite inv_layers0 in Hq. apply elem_of_app in Hq as [Hq|Hq].
  - apply inv_lo0 in Hq. assert (dq = d0') by congruence. lia.
  - apply inv_hi0 in Hq. assert (dq = S d0') by congruence. lia.
Qed.

(** The reconstruction loop from a visited table [v] of depth [d]. *)
Lemma reconstruct_walk Q st P dm d0 lo hi :
  bfs_inv Q st P dm d0 lo hi ->
  forall d v fuel acc, dm !! v = Some d -> (d <= fuel)%nat ->
  exists pre, reconstruct fuel (parents st) s v (v :: acc) = Some (pre ++ v :: acc) /\
              walk g s (pre ++ [v]) v /\ length pre = d.
Proof.
  intros Hinv. induction d as [|d IH]; intros v fuel acc Hv Hfuel.
  - destruct (decide (v = s)) as [->|Hne].
    + exists []. split_and!; [|apply walk_one|done].
      destruct fuel; simpl; by rewrite decide_True.
    + assert (Hin : v ∈ dom dm) by (apply elem_of_dom; eauto).
      destruct (inv_parent Hinv v Hin Hne) as (u & d & _ & _ & _ & Hd).
      congruence.
  - destruct (decide (v = s)) as [->|Hne].
    { pose proof (inv_start Hinv). congruence. }
    assert (Hin : v ∈ dom dm) by (apply elem_of_dom; eauto).
    destruct (inv_parent Hinv v Hin Hne) as (u & d' & Hu & Huv & Hdu & Hdv).
    assert (d' = d) as -> by congruence.
    destruct fuel as [|fuel]; [lia|]. simpl. rewrite decide_False by done.
    rewrite Hu. simpl.
    destruct (IH u fuel (v :: acc) Hdu) as (pre & Hrec & Hwalk & Hlen); [lia|].
    exists (pre ++ [u]). rewrite Hrec. split_and!.
    + by rewrite <- app_assoc.
    + by apply walk_snoc with u.
    + rewrite length_app. simpl. lia.
Qed.

Lemma bfs_loop_nil fuel ord k st :
  queue st = [] -> bfs_loop fuel ord g s e k st = Some (Err (no_path_error s e)).
Proof. intros Hq. destruct fuel; simpl; by rewrite Hq. Qed.

Lemma bfs_loop_correct ord :
  valid_order ord ->
  forall fuel k st P dm d0 lo hi,
    bfs_inv (queue st) st P dm d0 lo hi ->
    (size universe <= size P + fuel)%nat ->
    exists r, bfs_loop fuel ord g s e k st = Some r /\ bfs_post r.
Proof.
  intros Hord. induction fuel as [|fuel IH]; intros k st P dm d0 lo hi Hinv Hfuel.
  all: destruct (queue st) as [|c rest] eqn:Hq.
  1,3: rewrite bfs_loop_nil by done; eexists; split; [done|]; split; [done|];
       intros n Hn;
       destruct (reach_visited _ _ _ _ _ _ _ _ _ Hinv Hn) as (w & dw & Hw & _ & [->|HwQ]);
       [|by apply elem_of_nil in HwQ];
       assert (Hin : e ∈ dom dm) by (apply elem_of_dom; eauto);
       apply (inv_split Hinv) in Hin as [HP|HQ];
       [by apply (inv_end Hinv)|by apply elem_of_nil in HQ].
  - (* no fuel left, yet a table is queued: impossible *)
    exfalso.
    assert (HcP : c ∉ P) by (apply (inv_fresh Hinv); set_solver).
    assert (Hsub : P ∪ {[c]} ⊆ universe).
    { intros v Hv. apply (inv_universe Hinv).
      apply (inv_split Hinv). set_solver. }
    apply subseteq_size in Hsub. rewrite size_union, size_singleton in Hsub by set_solver.
    lia.
  - assert (HcP : c ∉ P) by (apply (inv_fresh Hinv); set_solver).
    simpl. rewrite Hq.
    destruct (decide (c = e)) as [->|Hce].
    + (* the destination is dequeued *)
      assert (Hin : e ∈ dom dm).
      { apply (inv_split Hinv). set_solver. }
      apply elem_of_dom in Hin as [de Hde].
      destruct (reconstruct_walk _ _ _ _ _ _ _ Hinv de e (size (parents st)) [] Hde)
        as (pre & Hrec & Hwalk & Hlen).
      { by apply (inv_depth_bound Hinv e). }
      rewrite Hrec. simpl. eexists. split; [done|]. split; [done|].
      intros n Hn. rewrite length_app. simpl.
      destruct (reach_visited _ _ _ _ _ _ _ _ _ Hinv Hn) as (w & dw & Hw & Hle & Hcase).
      assert (HwQ : w ∈ e :: rest) by (destruct Hcase as [->|?]; set_solver).
      destruct (head_least _ _ _ _ _ _ _ _ _ _ Hinv HwQ Hw) as (dc & Hdc & Hle').
      assert (dc = de) by congruence. lia.
    + (* expand [c] *)
      set (st1 := mk_bfs rest (visited st) (parents st)).
      assert (Hinv1 : bfs_inv (c :: queue st1) st1 P dm d0 lo hi).
      { destruct Hinv. split; done. }
      apply bfs_inv_normalize in Hinv1 as (d0' & lo' & hi' & Hinv1).
      set (ns := range_keys (sub k ord) (neighbors g c)).
      assert (Hns : forall n, n ∈ ns <-> edge g c n).
      { intros n. apply elem_of_range_keys. by apply valid_order_sub. }
      destruct (fold_visit_inv c P d0' lo' ns st1 dm hi' Hinv1)
        as (dm2 & hi2 & Hinv2 & Hsub & Hall).
      { apply Forall_forall. intros n Hn. by apply Hns. }
      eapply (finish_inv c) in Hinv2; [|done|].
      2: { intros n Hn. apply Hall. by apply Hns. }
      eapply IH; [exact Hinv2|].
      rewrite size_union, size_singleton by set_solver. lia.
Qed.
End BFS.

Lemma bfsShortestPath_correct ord g s e :
  valid_order ord ->
  exists r, bfsShortestPath ord g s e = Some r /\ bfs_post g s e r.
Proof.
  intros Hord. unfold bfsShortestPath.
  eapply bfs_loop_correct; [done|apply bfs_inv_init|].
  rewrite size_empty. unfold universe.
  rewrite size_union_alt, size_singleton.
  assert (size (graph_nodes g ∖ {[s]}) <= size (graph_nodes g))%nat
    by (apply subseteq_size; set_solver).
  lia.
Qed.

Lemma labelled_buildRelationshipGraph fields :
  labelled (buildRelationshipGraph fields).
Proof.
  intros a b j Hj. apply built_edge_last in Hj as (_ & f & _ & _ & _ & _ & ->). done.
Qed.

(** [FindJoinPath] on two distinct tables of the graph. *)
Lemma FindJoinPath_present ord g from to :
  valid_order ord -> from <> to -> is_Some (g !! from) -> is_Some (g !! to) ->
  (exists path, FindJoinPath ord g from to = Some (Ok (path_to_joins g path)) /\
                walk g from path to /\
                forall n, reach g from n to -> (length path - 1 <= n)%nat) \/
  (FindJoinPath ord g from to = Some (Err (no_path_error from to)) /\
   forall n, ~ reach g from n to).
Proof.
  intros Hord Hne [x Hfrom] [y Hto]. unfold FindJoinPath.
  rewrite decide_False by done. rewrite Hfrom, Hto.
  destruct (bfsShortestPath_correct ord g from to Hord) as ([path|msg] & -> & Hpost).
  - left. exists path. destruct Hpost. done.
  - right. destruct Hpost as [-> Hno]. done.
Qed.

(** C1. For the graph built from any catalog, any order of map iteration,
    and two tables of the graph connected by some sequence of its joins,
    [FindJoinPath] returns a sequence of stored joins leading from
    [fromTable] to [toTable], and no sequence of joins of the graph leading
    from [fromTable] to [toTable] is shorter. *)
Theorem FindJoinPath_shortest (ord : MapOrder) (fields : list Field.t)
    (fromTable toTable : string) :
  valid_order ord ->
  let g := buildRelationshipGraph fields in
  fromTable ∈ dom g -> toTable ∈ dom g ->
  (exists js, join_path g fromTable js toTable) ->
  exists joins,
    FindJoinPath ord g fromTable toTable = Some (Ok joins) /\
    join_path g fromTable joins toTable /\
    forall js, join_path g fromTable js toTable -> (length joins <= length js)%nat.
Proof.
  intros Hord g Hfrom Hto [js0 Hjs0].
  destruct (decide (fromTable = toTable)) as [->|Hne].
  - exists []. unfold FindJoinPath. rewrite decide_True by done.
    split_and!; [done|apply join_path_nil|]. intros; simpl; lia.
  - apply elem_of_dom in Hfrom, Hto.
    destruct (FindJoinPath_present ord g fromTable toTable Hord Hne Hfrom Hto)
      as [(path & -> & Hwalk & Hmin)|[_ Hno]].
    + destruct (walk_join_path g fromTable path toTable) as [Hjp Hlen];
        [apply labelled_buildRelationshipGraph|done|].
      eexists. split_and!; [done|done|].
      intros js Hjs. rewrite Hlen. apply Hmin. by apply join_path_reach.
    + exfalso. eapply Hno. by apply join_path_reach.
Qed.

(** C4 (amended). [FindJoinPath g A A] is the empty sequence with no error,
    for every [A]. For two different tables: when [fromTable] is not in the
    graph the error is "table <fromTable> not found in relationship graph";
    when [fromTable] is and [toTable] is not, it is the same message naming
    [toTable]; when both are and no sequence of edges leads from one to the
    other, it is "no join path found between <fromTable> and <toTable>". *)
Theorem FindJoinPath_outcomes (ord : MapOrder) (g : Graph) (fromTable toTable : string) :
  valid_order ord ->
  (fromTable = toTable -> FindJoinPath ord g fromTable toTable = Some (Ok [])) /\
  (fromTable <> toTable -> g !! fromTable = None ->
   FindJoinPath ord g fromTable toTable
   = Some (Err ("table " +:+ fromTable +:+ " not found in relationship graph"))) /\
  (fromTable <> toTable -> is_Some (g !! fromTable) -> g !! toTable = None ->
   FindJoinPath ord g fromTable toTable
   = Some (Err ("table " +:+ toTable +:+ " not found in relationship graph"))) /\
  (fromTable <> toTable -> is_Some (g !! fromTable) -> is_Some (g !! toTable) ->
   (forall n, ~ reach g fromTable n toTable) ->
   FindJoinPath ord g fromTable toTable
   = Some (Err ("no join path found between " +:+ fromTable +:+ " and " +:+ toTable))).
Proof.
  intros Hord. split_and!.
  - intros ->. unfold FindJoinPath. by rewrite decide_True.
  - intros Hne Hfrom. unfold FindJoinPath. rewrite decide_False by done. by rewrite Hfrom.
  - intros Hne [x Hfrom] Hto. unfold FindJoinPath. rewrite decide_False by done.
    by rewrite Hfrom, Hto.
  - intros Hne Hfrom Hto Hno.
    destruct (FindJoinPath_present ord g fromTable toTable Hord Hne Hfrom Hto)
      as [(path & _ & Hwalk & _)|[-> _]]; [|done].
    exfalso. eapply Hno. by apply walk_reach.
Qed.

(** C4 (counterexample). A table that is not in the graph, asked for a path
    to itself, gets the empty sequence and no NotFound error. *)
Lemma FindJoinPath_absent_same_table :
  (∅ : Graph) !! "ghost" = None /\
  FindJoinPath ord_id ∅ "ghost" "ghost" = Some (Ok []).
Proof. split; reflexivity. Qed.

Lemma FindJoinPath_shortest_witness :
  exists joins,
    FindJoinPath ord_id (buildRelationshipGraph sample_catalog) "users" "products"
    = Some (Ok joins) /\
    join_path (buildRelationshipGraph sample_catalog) "users" joins "products" /\
    forall js, join_path (buildRelationshipGraph sample_catalog) "users" js "products" ->
               (length joins <= length js)%nat.
Proof.
  apply (FindJoinPath_shortest ord_id sample_catalog "users" "products").
  - exact valid_order_id.
  - apply elem_of_dom. eexists. vm_compute. reflexivity.
  - apply elem_of_dom. eexists. vm_compute. reflexivity.
  - exists [Join.mk "users" "orders" "orders.user_id = users.user_id";
            Join.mk "orders" "order_items" "order_items.order_id = orders.order_id";
            Join.mk "order_items" "products"
                    "order_items.product_id = products.product_id"].
    repeat (apply join_path_cons; [vm_compute; reflexivity|reflexivity|simpl]).
    apply join_path_nil.
Defined.

Lemma FindJoinPath_outcomes_witness :
  ("users" = "ghost" ->
   FindJoinPath ord_id sample_graph "users" "ghost" = Some (Ok [])) /\
  ("users" <> "ghost" -> sample_graph !! "users" = None ->
   FindJoinPath ord_id sample_graph "users" "ghost"
   = Some (Err ("table " +:+ "users" +:+ " not found in relationship graph"))) /\
  ("users" <> "ghost" -> is_Some (sample_graph !! "users") ->
   sample_graph !! "ghost" = None ->
   FindJoinPath ord_id sample_graph "users" "ghost"
   = Some (Err ("table " +:+ "ghost" +:+ " not found in relationship graph"))) /\
  ("users" <> "ghost" -> is_Some (sample_graph !! "users") ->
   is_Some (sample_graph !! "ghost") ->
   (forall n, ~ reach sample_graph "users" n "ghost") ->
   FindJoinPath ord_id sample_graph "users" "ghost"
   = Some (Err ("no join path found between " +:+ "users" +:+ " and " +:+ "ghost"))).
Proof.
  apply (FindJoinPath_outcomes ord_id sample_graph "users" "ghost").
  exact valid_order_id.
Defined.

(** ** SQL assembly *)

Lemma FindJoinPath_total ord g a b :
  valid_order ord -> exists r, FindJoinPath ord g a b = Some r.
Proof.
  intros Hord. unfold FindJoinPath.
  destruct (decide (a = b)); [eauto|].
  destruct (g !! a); [|eauto]. destruct (g !! b); [|eauto].
  destruct (bfsShortestPath_correct ord g a b Hord) as ([path|msg] & -> & _); eauto.
Qed.

Section AssemblerProofs.
Context {F : Type} `{Float64 F}.
Implicit Types (matches : list (FieldMatch.t F)).

Lemma collectJoins_total ord g primary others : forall i acc,
  valid_order ord -> exists r, collectJoins ord g primary others i acc = Some r.
Proof.
  induction others as [|t rest IH]; intros i acc Hord; simpl; [eauto|].
  destruct (FindJoinPath_total (sub 1 (sub i ord)) g primary t) as ([js|msg] & ->).
  { by do 2 apply valid_order_sub. }
  - by apply IH.
  - eauto.
Qed.

Lemma planJoins_total ord g names :
  valid_order ord -> exists r, planJoins ord g names = Some r.
Proof.
  intros Hord. unfold planJoins. destruct names as [|primary [|t rest]]; [eauto..|].
  destruct (collectJoins_total ord g primary (t :: rest) 1 [] Hord) as ([js|msg] & ->);
    eauto.
Qed.

(** When every call of [FindJoinPath] succeeds, the planner collects the
    paths one after the other. *)
Lemma collectJoins_concat ord g primary others : forall i acc paths,
  Forall2 (fun it js => FindJoinPath (sub 1 (sub (fst it) ord)) g primary (snd it)
                        = Some (Ok js))
          (zip (seq i (length others)) others) paths ->
  collectJoins ord g primary others i acc = Some (Ok (acc ++ concat paths)).
Proof.
  induction others as [|t rest IH]; intros i acc paths Hall; simpl in *.
  - apply Forall2_nil_inv_l in Hall as ->. simpl. by rewrite app_nil_r.
  - apply Forall2_cons_inv_l in Hall as (js & paths' & Hjs & Hrest & ->).
    simpl in Hjs. rewrite Hjs. rewrite (IH (S i) (acc ++ js) paths' Hrest).
    simpl. by rewrite app_assoc.
Qed.

Lemma requiredTables_lookup matches t :
  requiredTables matches !! t =
  if bool_decide (t ∈ FieldMatch.TableName <$> matches) then Some true else None.
Proof.
  unfold requiredTables. revert t.
  induction matches as [|m matches IH] using rev_ind; intros t.
  - cbn [foldl]. rewrite lookup_empty. rewrite bool_decide_false; [done|].
    intros Hd. by apply elem_of_nil in Hd.
  - rewrite foldl_snoc, fmap_app.
    destruct (decide (FieldMatch.TableName m = t)) as [<-|Hne].
    + rewrite lookup_insert_eq. rewrite bool_decide_true; [done|]. set_solver.
    + rewrite lookup_insert_ne by done. rewrite IH.
      destruct (decide (t ∈ FieldMatch.TableName <$> matches)) as [Hin|Hin].
      * rewrite !bool_decide_true; [done|set_solver|done].
      * rewrite !bool_decide_false; [done|set_solver|done].
Qed.

Lemma elem_of_tableNames ord matches t :
  valid_order ord ->
  t ∈ tableNames ord matches <-> t ∈ FieldMatch.TableName <$> matches.
Proof.
  intros Hord. unfold tableNames.
  rewrite elem_of_range_keys by (by apply valid_order_sub).
  rewrite requiredTables_lookup. case_bool_decide; split; try done.
  all: try (intros [? ?]; done); eauto.
Qed.

Lemma tableNames_NoDup ord matches :
  valid_order ord -> NoDup (tableNames ord matches).
Proof.
  intros Hord. unfold tableNames, range_keys, sub.
  rewrite (Hord [0%nat] _). apply NoDup_fst_map_to_list.
Qed.

Lemma joinClauses_returns allJoins : forall clauses tablesInJoin,
  Forall (fun j => Join.To j <> "") allJoins ->
  exists r, joinClauses allJoins clauses tablesInJoin = Returned r.
Proof.
  induction allJoins as [|j rest IH]; intros clauses seen Hall; simpl; [eauto|].
  apply Forall_cons in Hall as [Hj Hrest].
  destruct (default false (seen !! Join.To j)); [by apply IH|].
  destruct (Join.To j) as [|c to] eqn:E; [done|]. simpl. by apply IH.
Qed.

Lemma slice_0_1_first_byte table alias :
  slice_0_1 table = Returned alias -> alias = first_byte table /\ table <> "".
Proof. destruct table; simpl; [done|]. by intros [= <-]. Qed.

(** The clauses emitted are those of the joins that introduce a new table,
    in the order of [allJoins]. *)
Lemma joinClauses_introducing allJoins : forall clauses tablesInJoin introduced r,
  (forall t, default false (tablesInJoin !! t) = true <-> t ∈ introduced) ->
  joinClauses allJoins clauses tablesInJoin = Returned r ->
  r = clauses ++ (join_clause <$> introducing allJoins introduced).
Proof.
  induction allJoins as [|j rest IH]; intros clauses seen introduced r Hseen; simpl.
  - intros [= <-]. by rewrite app_nil_r.
  - destruct (default false (seen !! Join.To j)) eqn:E.
    + rewrite bool_decide_true by (by apply Hseen). by apply IH.
    + rewrite bool_decide_false; cycle 1.
      { intros Hin. apply Hseen in Hin. congruence. }
      destruct (slice_0_1 (Join.To j)) as [alias|] eqn:Es; [|done].
      apply slice_0_1_first_byte in Es as [-> _].
      intros Hr. eapply (IH _ _ (Join.To j :: introduced)) in Hr.
      * rewrite Hr. simpl. by rewrite <- app_assoc.
      * intros t. destruct (decide (Join.To j = t)) as [<-|Hne].
        -- rewrite lookup_insert_eq. simpl. set_solver.
        -- rewrite lookup_insert_ne by done. rewrite Hseen. set_solver.
Qed.
End AssemblerProofs.

Lemma existsb_condition_false (rest : list Join.t) (c : string) :
  existsb (fun j => bool_decide (Join.Condition j = c)) rest = false <->
  Forall (fun j => Join.Condition j <> c) rest.
Proof.
  induction rest as [|j rest IH]; simpl.
  - split; [constructor|done].
  - rewrite orb_false_iff, IH, Forall_cons, bool_decide_eq_false. done.
Qed.

Lemma keep_last_elem (joins : list Join.t) (j : Join.t) :
  j ∈ keep_last joins <->
  exists l1 l2, joins = l1 ++ j :: l2 /\
    Forall (fun j' => Join.Condition j' <> Join.Condition j) l2.
Proof.
  induction joins as [|x rest IH]; simpl.
  - split; [by intros ?%elem_of_nil|]. intros (l1 & l2 & E & _). by destruct l1.
  - destruct (existsb _ rest) eqn:Ex.
    + rewrite IH. split.
      * intros (l1 & l2 & -> & Hl2). exists (x :: l1), l2. done.
      * intros (l1 & l2 & E & Hl2). destruct l1 as [|y l1]; simpl in E.
        -- injection E as -> ->. apply existsb_condition_false in Hl2. congruence.
        -- injection E as -> ->. eauto.
    + apply existsb_condition_false in Ex. rewrite elem_of_cons, IH. split.
      * intros [->|(l1 & l2 & -> & Hl2)].
        -- exists [], rest. done.
        -- exists (x :: l1), l2. done.
      * intros (l1 & l2 & E & Hl2). destruct l1 as [|y l1]; simpl in E.
        -- injection E as -> ->. by left.
        -- injection E as -> ->. right. eauto.
Qed.

Lemma keep_last_subset (joins : list Join.t) (j : Join.t) :
  j ∈ keep_last joins -> j ∈ joins.
Proof. intros (l1 & l2 & -> & _)%keep_last_elem. set_solver. Qed.

Lemma keep_last_snoc (joins : list Join.t) (x j : Join.t) :
  j ∈ keep_last (joins ++ [x]) <->
  j = x \/ (j ∈ keep_last joins /\ Join.Condition x <> Join.Condition j).
Proof.
  rewrite !keep_last_elem. split.
  - intros (l1 & l2 & E & Hl2).
    apply snoc_split in E as [(-> & -> & ->)|(l2' & -> & ->)]; [by left|right].
    apply Forall_app in Hl2 as [Hl2 Hx]. rewrite Forall_singleton in Hx.
    split; [|done]. eauto.
  - intros [->|[(l1 & l2 & -> & Hl2) Hx]].
    + exists joins, []. done.
    + exists l1, (l2 ++ [x]). rewrite <- app_assoc. split; [done|].
      apply Forall_app. split; [done|]. by apply Forall_singleton.
Qed.

Lemma NoDup_keep_last_conditions (joins : list Join.t) :
  NoDup (Join.Condition <$> keep_last joins).
Proof.
  induction joins as [|x rest IH]; simpl; [constructor|].
  destruct (existsb _ rest) eqn:Ex; [done|].
  apply existsb_condition_false in Ex. rewrite fmap_cons. apply NoDup_cons. split; [|done].
  intros (j & Hc & Hj%keep_last_subset)%list_elem_of_fmap.
  rewrite Forall_forall in Ex. by apply (Ex j).
Qed.

Lemma uniqueJoins_snoc (joins : list Join.t) (x : Join.t) :
  uniqueJoins (joins ++ [x]) = <[Join.Condition x := x]> (uniqueJoins joins).
Proof. unfold uniqueJoins. by rewrite foldl_snoc. Qed.

Lemma uniqueJoins_lookup (joins : list Join.t) (k : string) (j : Join.t) :
  uniqueJoins joins !! k = Some j <-> Join.Condition j = k /\ j ∈ keep_last joins.
Proof.
  revert k j. induction joins as [|x joins IH] using rev_ind; intros k j.
  - unfold uniqueJoins; simpl. rewrite lookup_empty. split; [done|].
    intros [_ ?%elem_of_nil]. done.
  - rewrite uniqueJoins_snoc, keep_last_snoc.
    destruct (decide (Join.Condition x = k)) as [<-|Hne].
    + rewrite lookup_insert_eq. split.
      * intros [= <-]. split; [done|by left].
      * intros [Hc [->|[_ Hx]]]; [done|congruence].
    + rewrite lookup_insert_ne by done. rewrite IH. split.
      * intros [<- Hj]. split; [done|]. right. done.
      * intros [<- [->|[Hj _]]]; done.
Qed.

Lemma map_values_by_key {A} (m : gmap string A) (d : A) :
  (fun key => default d (m !! key)) <$> (map_to_list m).*1 = (map_to_list m).*2.
Proof.
  rewrite <- list_fmap_compose. apply Forall_fmap_ext_1. rewrite Forall_forall.
  intros [k v] Hkv. apply elem_of_map_to_list in Hkv. simpl. by rewrite Hkv.
Qed.

Lemma uniqueJoins_keys (joins : list Join.t) :
  (map_to_list (uniqueJoins joins)).*1 =
  Join.Condition <$> (map_to_list (uniqueJoins joins)).*2.
Proof.
  rewrite <- list_fmap_compose. apply Forall_fmap_ext_1. rewrite Forall_forall.
  intros [k v] Hkv. apply elem_of_map_to_list, uniqueJoins_lookup in Hkv as [Hc _].
  done.
Qed.

(** [deduplicateJoins] returns, in some order, the last join of each
    condition string. *)
Lemma deduplicateJoins_keep_last (ord : MapOrder) (joins : list Join.t) :
  valid_order ord -> deduplicateJoins ord joins ≡ₚ keep_last joins.
Proof.
  intros Hord. unfold deduplicateJoins.
  destruct (Z.leb_spec (Z.of_nat (length joins)) 1) as [Hle|Hgt].
  - destruct joins as [|x [|y rest]]; simpl in *; [done|done|lia].
  - unfold range_keys. rewrite (Hord [] _), map_values_by_key.
    apply NoDup_Permutation.
    + apply (NoDup_fmap_1 Join.Condition). rewrite <- uniqueJoins_keys.
      apply NoDup_fst_map_to_list.
    + apply (NoDup_fmap_1 Join.Condition), NoDup_keep_last_conditions.
    + intros j. rewrite list_elem_of_fmap. split.
      * intros ([k v] & -> & Hkv). simpl.
        apply elem_of_map_to_list, uniqueJoins_lookup in Hkv as [_ Hv]. done.
      * intros Hj. exists (Join.Condition j, j). split; [done|].
        apply elem_of_map_to_list, uniqueJoins_lookup. done.
Qed.

Section AssemblerTheorems.
Context {F : Type} `{Float64 F}.
Implicit Types (matches : list (FieldMatch.t F)).

(** The query [buildSQLQuery] returns once the planner has succeeded. *)
Lemma buildSQLQuery_planned ord g matches first rest primary others allJoins
    queryType distinct limit :
  matches = first :: rest ->
  tableNames ord matches = primary :: others ->
  primary <> "" ->
  planJoins ord g (primary :: others) = Some (Ok allJoins) ->
  Forall (fun j => Join.To j <> "") allJoins ->
  buildSQLQuery ord g matches queryType distinct limit =
  Some (Returned (Ok
    (assemble (selectClause first matches queryType distinct)
              (primary +:+ " " +:+ first_byte primary)
              (join_clause <$> introducing allJoins [primary])
              ""
              (if decide (queryType = "GROUP")
               then "GROUP BY " +:+ qualified first else "")
              (if limit >? 0 then "LIMIT " +:+ pretty limit else ""),
     allJoins))).
Proof.
  intros -> Hnames Hprimary Hplan Hto. unfold buildSQLQuery.
  rewrite Hnames, Hplan.
  destruct (slice_0_1 primary) as [alias|] eqn:Ealias; cycle 1.
  { destruct primary; [done|]. discriminate. }
  apply slice_0_1_first_byte in Ealias as [-> _].
  destruct (joinClauses_returns allJoins [] {[primary := true]} Hto) as [clauses Hcl].
  rewrite Hcl.
  apply (joinClauses_introducing allJoins [] _ [primary]) in Hcl as ->; [done|].
  intros t. destruct (decide (primary = t)) as [<-|Hne].
  - rewrite lookup_singleton_eq. simpl. set_solver.
  - rewrite lookup_singleton_ne by done. simpl. set_solver.
Qed.

Lemma buildSQLQuery_returns ord g matches queryType distinct limit :
  valid_order ord ->
  (forall m, m ∈ matches -> FieldMatch.TableName m <> "") ->
  (forall allJoins, planJoins ord g (tableNames ord matches) = Some (Ok allJoins) ->
     Forall (fun j => Join.To j <> "") allJoins) ->
  exists r, buildSQLQuery ord g matches queryType distinct limit = Some (Returned r).
Proof.
  intros Hord Hnames Hjoins.
  destruct matches as [|first rest] eqn:Em; [simpl; eauto|]. rewrite <- Em in *.
  destruct (tableNames ord matches) as [|primary others] eqn:Et.
  { assert (Hin : FieldMatch.TableName first ∈ tableNames ord matches).
    { apply elem_of_tableNames; [done|]. rewrite Em. set_solver. }
    rewrite Et in Hin. by apply elem_of_nil in Hin. }
  assert (Hprimary : primary <> "").
  { assert (Hin : primary ∈ tableNames ord matches) by (rewrite Et; set_solver).
    apply elem_of_tableNames in Hin; [|done].
    apply list_elem_of_fmap in Hin as (m & -> & Hm). by apply Hnames. }
  destruct (planJoins_total ord g (primary :: others) Hord) as ([allJoins|msg] & Hplan).
  - erewrite buildSQLQuery_planned; eauto.
  - unfold buildSQLQuery. rewrite Em, <- Em, Et, Hplan. eauto.
Qed.
End AssemblerTheorems.

(** C10. [buildSQLQuery] takes no out-of-range slice, and so returns,
    whenever every matched field's table name and the target table name of
    every join the planner hands over are non-empty, for any valid order of
    map iteration; and on a match whose table name is the empty string the
    alias slice [tableNames[0][0:1]] is out of range and the call panics. *)
Theorem buildSQLQuery_alias_slices :
  (forall (F : Type) (HF : Float64 F) (ord : MapOrder) (g : Graph)
          (matches : list (FieldMatch.t F)) (queryType : string)
          (distinct : bool) (limit : Z),
     valid_order ord ->
     (forall m, m ∈ matches -> FieldMatch.TableName m <> "") ->
     (forall allJoins,
        planJoins ord g (tableNames ord matches) = Some (Ok allJoins) ->
        Forall (fun j => Join.To j <> "") allJoins) ->
     exists r, buildSQLQuery ord g matches queryType distinct limit
               = Some (Returned r)) /\
  buildSQLQuery ord_id ∅ [FieldMatch.mk "email" "" "User email address" 100%float]
                "SELECT" false 0
  = Some (Panicked "slice bounds out of range [:1] with length 0").
Proof.
  split; [|reflexivity].
  intros F HF ord g matches queryType distinct limit. apply buildSQLQuery_returns.
Qed.

Lemma buildSQLQuery_alias_slices_witness :
  exists r, buildSQLQuery ord_rev sample_graph email_and_total "SELECT" false 10
            = Some (Returned r).
Proof.
  apply (proj1 buildSQLQuery_alias_slices float float64_ieee ord_rev sample_graph
           email_and_total "SELECT" false 10).
  - exact valid_order_rev.
  - intros m Hm. repeat (apply elem_of_cons in Hm as [->|Hm]; [done|]).
    by apply elem_of_nil in Hm.
  - intros allJoins Hplan. vm_compute in Hplan. injection Hplan as <-.
    repeat constructor; done.
Defined.

(** C8 (amended). When a query is produced (the primary table name is not
    empty, the planner succeeded and no join targets a table with an empty
    name), the FROM clause is the primary table followed by its first byte
    exactly as written, with no change of case, and every JOIN clause
    aliases its table in the same way; nothing disambiguates two tables
    with the same first byte. *)
Theorem buildSQLQuery_first_byte_alias {F : Type} `{Float64 F} (ord : MapOrder)
    (g : Graph) (matches : list (FieldMatch.t F)) (first : FieldMatch.t F)
    (rest : list (FieldMatch.t F)) (primary : string) (others : list string)
    (allJoins : list Join.t) (queryType : string) (distinct : bool) (limit : Z) :
  matches = first :: rest ->
  tableNames ord matches = primary :: others ->
  primary <> "" ->
  planJoins ord g (primary :: others) = Some (Ok allJoins) ->
  Forall (fun j => Join.To j <> "") allJoins ->
  exists c tail,
    primary = String c tail /\
    buildSQLQuery ord g matches queryType distinct limit =
    Some (Returned (Ok
      (assemble (selectClause first matches queryType distinct)
                (primary +:+ " " +:+ String c "")
                ((fun j => "JOIN " +:+ Join.To j +:+ " " +:+ first_byte (Join.To j)
                           +:+ " ON " +:+ Join.Condition j)
                   <$> introducing allJoins [primary])
                ""
                (if decide (queryType = "GROUP")
                 then "GROUP BY " +:+ qualified first else "")
                (if limit >? 0 then "LIMIT " +:+ pretty limit else ""),
       allJoins))).
Proof.
  intros Hm Hnames Hprimary Hplan Hto.
  destruct primary as [|c tail] eqn:Ep; [done|]. exists c, tail. split; [done|].
  rewrite <- Ep in *.
  rewrite (buildSQLQuery_planned ord g matches first rest primary others allJoins)
    by done.
  rewrite Ep. reflexivity.
Qed.

Lemma buildSQLQuery_first_byte_alias_witness :
  exists c tail,
    "users" = String c tail /\
    buildSQLQuery ord_rev sample_graph email_and_total "SELECT" false 10 =
    Some (Returned (Ok
      (assemble "users.email, orders.total_amount"
                ("users" +:+ " " +:+ String c "")
                ["JOIN orders o ON orders.user_id = users.user_id"]
                "" "" "LIMIT 10",
       [Join.mk "users" "orders" "orders.user_id = users.user_id"]))).
Proof.
  apply (buildSQLQuery_first_byte_alias ord_rev sample_graph email_and_total
           (FieldMatch.mk "email" "users" "User email address" 100%float)
           [FieldMatch.mk "total_amount" "orders" "Total order value in cents" 50%float]
           "users" ["orders"]
           [Join.mk "users" "orders" "orders.user_id = users.user_id"]
           "SELECT" false 10).
  - reflexivity.
  - vm_compute. reflexivity.
  - discriminate.
  - vm_compute. reflexivity.
  - repeat constructor; discriminate.
Defined.

(** C8 (counterexample). The table [Users] is aliased [U], not the
    lower-cased [u]. *)
Lemma buildSQLQuery_alias_keeps_case :
  buildSQLQuery ord_id ∅ [FieldMatch.mk "Email" "Users" "User email address" 100%float]
                "SELECT" false 0
  = Some (Returned (Ok ("SELECT Users.Email FROM Users U", []))) /\
  asciiToLower "U" = "u".
Proof. split; reflexivity. Qed.

(** C7. The code at a two-table match list, under the two iteration orders
    of the map [tables]: the matches name [users] first and [orders]
    second, yet one valid order makes [orders] the primary table and the
    other makes it [users]; the FROM clause and the joins differ. *)
Theorem buildSQLQuery_primary_follows_map_order :
  valid_order ord_id /\ valid_order ord_rev /\
  FieldMatch.TableName <$> email_and_total = ["users"; "orders"] /\
  buildSQLQuery ord_id sample_graph email_and_total "SELECT" false 0
  = Some (Returned (Ok
      ("SELECT users.email, orders.total_amount FROM orders o JOIN users u ON orders.user_id = users.user_id",
       [Join.mk "orders" "users" "orders.user_id = users.user_id"]))) /\
  buildSQLQuery ord_rev sample_graph email_and_total "SELECT" false 0
  = Some (Returned (Ok
      ("SELECT users.email, orders.total_amount FROM users u JOIN orders o ON orders.user_id = users.user_id",
       [Join.mk "users" "orders" "orders.user_id = users.user_id"]))).
Proof.
  split_and!; [exact valid_order_id|exact valid_order_rev|reflexivity| |];
    vm_compute; reflexivity.
Qed.

(** C6 (amended). The planner calls [FindJoinPath] from the primary table
    to each other table in turn; when the calls succeed, [allJoins] is
    [deduplicateJoins] of the paths appended in that order, which is a
    rearrangement of the joins kept by [keep_last], one for each condition
    string, the last collected with it; and the assembler emits one JOIN
    clause for each join of [allJoins] that introduces a new table, in the
    order of [allJoins]. *)
Theorem planJoins_union_keeps_last (ord : MapOrder) (g : Graph) (primary : string)
    (second : string) (others : list string) (paths : list (list Join.t)) :
  valid_order ord ->
  Forall2 (fun it js =>
             FindJoinPath (sub 1 (sub (fst it) ord)) g primary (snd it) = Some (Ok js))
          (zip (seq 1 (S (length others))) (second :: others)) paths ->
  Forall (fun j => Join.To j <> "") (concat paths) ->
  exists allJoins,
    planJoins ord g (primary :: second :: others) = Some (Ok allJoins) /\
    allJoins = deduplicateJoins (sub 2 ord) (concat paths) /\
    allJoins ≡ₚ keep_last (concat paths) /\
    joinClauses allJoins [] {[primary := true]}
    = Returned ((fun j => "JOIN " +:+ Join.To j +:+ " " +:+ first_byte (Join.To j)
                          +:+ " ON " +:+ Join.Condition j)
                  <$> introducing allJoins [primary]).
Proof.
  intros Hord Hpaths Hto.
  exists (deduplicateJoins (sub 2 ord) (concat paths)).
  assert (Hperm : deduplicateJoins (sub 2 ord) (concat paths) ≡ₚ keep_last (concat paths))
    by (by apply deduplicateJoins_keep_last, valid_order_sub).
  split_and!; [|done|done|].
  - unfold planJoins.
    rewrite (collectJoins_concat ord g primary (second :: others) 1 [] paths) by done.
    done.
  - assert (Hto' : Forall (fun j => Join.To j <> "")
                          (deduplicateJoins (sub 2 ord) (concat paths))).
    { rewrite Forall_forall in Hto |- *. intros j Hj. apply Hto.
      rewrite Hperm in Hj. by apply keep_last_subset. }
    destruct (joinClauses_returns _ [] {[primary := true]} Hto') as [clauses Hcl].
    rewrite Hcl. f_equal.
    apply (joinClauses_introducing _ [] _ [primary]) in Hcl as ->; [done|].
    intros t. destruct (decide (primary = t)) as [<-|Hne].
    + rewrite lookup_singleton_eq. simpl. set_solver.
    + rewrite lookup_singleton_ne by done. simpl. set_solver.
Qed.

Lemma planJoins_union_keeps_last_witness :
  exists allJoins,
    planJoins ord_rev dotted_graph ["d"; "a"; "a.b"] = Some (Ok allJoins) /\
    allJoins = deduplicateJoins (sub 2 ord_rev)
                 (concat [[Join.mk "d" "a" "a.b.c = d.e"];
                          [Join.mk "d" "a.b" "a.b.c = d.e"]]) /\
    allJoins ≡ₚ keep_last (concat [[Join.mk "d" "a" "a.b.c = d.e"];
                                   [Join.mk "d" "a.b" "a.b.c = d.e"]]) /\
    joinClauses allJoins [] {["d" := true]}
    = Returned ((fun j => "JOIN " +:+ Join.To j +:+ " " +:+ first_byte (Join.To j)
                          +:+ " ON " +:+ Join.Condition j)
                  <$> introducing allJoins ["d"]).
Proof.
  apply (planJoins_union_keeps_last ord_rev dotted_graph "d" "a" ["a.b"]).
  - exact valid_order_rev.
  - repeat constructor; vm_compute; reflexivity.
  - repeat constructor; discriminate.
Defined.

(** C6 (counterexample). From the primary table [d] the planner collects
    the join to [a] and then the join to [a.b], both printed
    [a.b.c = d.e]; the join returned and emitted is the second, not the
    first. Likewise [deduplicateJoins] on an edge followed by its reverse
    keeps the reverse. *)
Lemma deduplicateJoins_drops_first_occurrence :
  tableNames ord_rev dotted_matches = ["d"; "a"; "a.b"] /\
  collectJoins ord_rev dotted_graph "d" ["a"; "a.b"] 1 []
  = Some (Ok [Join.mk "d" "a" "a.b.c = d.e"; Join.mk "d" "a.b" "a.b.c = d.e"]) /\
  buildSQLQuery ord_rev dotted_graph dotted_matches "SELECT" false 0
  = Some (Returned (Ok
      ("SELECT d.e, a.b.c, a.b.c FROM d d JOIN a.b a ON a.b.c = d.e",
       [Join.mk "d" "a.b" "a.b.c = d.e"]))) /\
  deduplicateJoins ord_id [Join.mk "a" "b" "a.x = b.y"; Join.mk "b" "a" "a.x = b.y"]
  = [Join.mk "b" "a" "a.x = b.y"].
Proof. split_and!; vm_compute; reflexivity. Qed.

(** ** The repository's test cases, run on the model *)

(** [TestQueryTypeIdentification]. *)
Example identifyQueryType_test_cases :
  identifyQueryType asciiToLower <$>
    [ "Get all users"; "Count orders by user"; "How many products are there";
      "Show the number of orders"; "Find unique user emails";
      "List distinct product names"; "Get orders grouped by product";
      "Show sales per user" ]
  = [ ("SELECT", false); ("COUNT", false); ("COUNT", false); ("COUNT", false);
      ("SELECT", true); ("SELECT", true); ("GROUP", false); ("GROUP", false) ].
Proof. vm_compute. reflexivity. Qed.

(** [TestFieldService]: the matches for "email" and "user" include
    [users.email], with a score of at least 50. *)
Example FindFieldMatches_test_case :
  FindFieldMatches asciiToLower sample_catalog ["email"; "user"] 30%float 10
  = Returned
      [ FieldMatch.mk "email" "users" "User email address" 100%float;
        FieldMatch.mk "user_id" "users" "Unique identifier for user" 50%float;
        FieldMatch.mk "user_id" "orders" "User who placed order" 50%float ].
Proof. vm_compute. reflexivity. Qed.

(** [TestFieldService]: one join from [users] to [orders], and a longer
    path from [users] to [products]. *)
Example FindJoinPath_test_cases :
  FindJoinPath ord_id sample_graph "users" "orders"
  = Some (Ok [Join.mk "users" "orders" "orders.user_id = users.user_id"]) /\
  FindJoinPath ord_rev sample_graph "users" "products"
  = Some (Ok [Join.mk "users" "orders" "orders.user_id = users.user_id";
              Join.mk "orders" "order_items" "order_items.order_id = orders.order_id";
              Join.mk "order_items" "products"
                      "order_items.product_id = products.product_id"]).
Proof. split; vm_compute; reflexivity. Qed.

(** [TestFieldServiceWithEmptyFile]: on the empty catalog there is no match
    and no table. *)
Example empty_catalog_test_case :
  FindFieldMatches asciiToLower [] ["email"; "user"] 30%float 10 = Returned [] /\
  FindJoinPath ord_id (buildRelationshipGraph []) "users" "orders"
  = Some (Err "table users not found in relationship graph").
Proof. split; vm_compute; reflexivity. Qed.

(** The confidence of two matches scored 90 and 60, in binary64 and in
    exact arithmetic: the mean 75 times 2/3. *)
Example calculateConfidence_test_case :
  calculateConfidence
    [ FieldMatch.mk "email" "users" "User email address" 90%float;
      FieldMatch.mk "user_id" "users" "Unique identifier for user" 60%float ]
  = 50%float /\
  (calculateConfidence
     [ FieldMatch.mk "email" "users" "User email address" (90 # 1)%Q;
       FieldMatch.mk "user_id" "users" "Unique identifier for user" (60 # 1)%Q ]
   == 50 # 1)%Q.
Proof. split; vm_compute; reflexivity. Qed.


(** * Further properties of the code *)

(** ** Loading and listing fields *)

Lemma loadRecords_rows (fields : list Field.t) (header : list string)
    (rows : list (list string)) :
  loadRecords fields (header :: rows) = fields ++ omap field_of_row rows.
Proof.
  unfold loadRecords. revert fields.
  induction rows as [|row rows IH]; intros fields; simpl.
  - by rewrite app_nil_r.
  - rewrite IH. destruct (Z.ltb_spec (Z.of_nat (length row)) 9) as [Hlt|Hge].
    + assert (field_of_row row = None) as ->; [|done].
      do 9 (destruct row as [|? row]; [done|]). simpl in Hlt. lia.
    + destruct (field_of_row row); simpl; [by rewrite <- app_assoc|done].
Qed.

Lemma omap_length_le {A B} (f : A -> option B) (l : list A) :
  (length (omap f l) <= length l)%nat.
Proof.
  induction l as [|x l IH]; [done|]. cbn [omap list_omap].
  destruct (f x); simpl; lia.
Qed.

Lemma field_of_row_of_field (f : Field.t) : field_of_row (row_of_field f) = Some f.
Proof. by destruct f. Qed.

Lemma field_of_row_record_field (row : list string) :
  field_of_row row = record_field row.
Proof.
  unfold record_field.
  do 9 (destruct row as [|? row]; [done|]).
  rewrite decide_False by (simpl; lia). done.
Qed.

(** X2. The loop of [loadCSV] skips the header and appends to the fields
    already loaded, in order, one field for each later record of nine columns
    or more, made of its first nine columns; a shorter record is skipped
    wherever it stands. No record gives no field, and the rows written from
    a list of fields are read back as that list. *)
Theorem loadRecords_round_trip :
  loadRecords [] [] = [] /\
  (forall (fields : list Field.t) (header : list string) (rows : list (list string)),
     loadRecords fields (header :: rows) = fields ++ omap record_field rows) /\
  (forall (header : list string) (fs : list Field.t),
     loadRecords [] (header :: (row_of_field <$> fs)) = fs).
Proof.
  split_and!; [done| |].
  - intros fields header rows. rewrite loadRecords_rows. f_equal.
    induction rows as [|row rows IH]; [done|].
    cbn [omap list_omap]. by rewrite field_of_row_record_field, IH.
  - intros header fs. rewrite loadRecords_rows. simpl.
    induction fs as [|f fs IH]; [done|].
    rewrite fmap_cons. cbn [omap list_omap]. rewrite field_of_row_of_field.
    by f_equal.
Qed.

Lemma filter_loop {A} (p : A -> bool) (l : list A) (acc : list A) :
  foldl (fun filtered x => if p x then filtered ++ [x] else filtered) acc l
  = acc ++ List.filter p l.
Proof.
  revert acc. induction l as [|x l IH]; intros acc; simpl.
  - by rewrite app_nil_r.
  - rewrite IH. destruct (p x); [by rewrite <- app_assoc|done].
Qed.

(** X1. [GetAllFields] returns every field for the system name "" or
    "default"; for "system_a" (for "system_b") the fields whose system-A
    (system-B) mapping is not empty, in catalog order; and no field for any
    other system name. *)
Theorem GetAllFields_by_system (s : FieldService.t) (system : string) :
  (system = "" \/ system = "default" ->
   GetAllFields s system = FieldService.fields s) /\
  (system = "system_a" ->
   GetAllFields s system =
   List.filter (fun f => negb (bool_decide (Field.SystemAFieldMap f = "")))
               (FieldService.fields s)) /\
  (system = "system_b" ->
   GetAllFields s system =
   List.filter (fun f => negb (bool_decide (Field.SystemBFieldMap f = "")))
               (FieldService.fields s)) /\
  (system <> "" -> system <> "default" -> system <> "system_a" ->
   system <> "system_b" -> GetAllFields s system = []).
Proof.
  unfold GetAllFields. split_and!.
  - intros [->| ->]; reflexivity.
  - intros ->. simpl. rewrite filter_loop. simpl. apply List.filter_ext.
    intros f. by rewrite orb_false_r.
  - intros ->. simpl. rewrite filter_loop. reflexivity.
  - intros H1 H2 H3 H4.
    rewrite (bool_decide_false (system = "")), (bool_decide_false (system = "default"))
      by done.
    simpl. rewrite filter_loop. simpl.
    rewrite (List.filter_ext _ (fun _ => false)).
    + induction (FieldService.fields s) as [|f l IH]; [done|]. exact IH.
    + intros f. rewrite (bool_decide_false (system = "system_a")),
                        (bool_decide_false (system = "system_b")) by done.
      reflexivity.
Qed.

Lemma GetAllFields_by_system_witness :
  GetAllFields (NewFieldService sample_records) "system_a"
  = List.filter (fun f => negb (bool_decide (Field.SystemAFieldMap f = "")))
                (FieldService.fields (NewFieldService sample_records)).
Proof.
  apply (proj1 (proj2 (GetAllFields_by_system (NewFieldService sample_records)
                         "system_a"))).
  reflexivity.
Defined.

(** ** Keyword extraction *)

Lemma bytes_append (s t : string) :
  list_ascii_of_string (s +:+ t) = list_ascii_of_string s ++ list_ascii_of_string t.
Proof. induction s as [|c s IH]; simpl; [done|]. by rewrite IH. Qed.

(** The words [strings.Fields] returns are not empty and are made of the
    bytes of the word being read and of non-space bytes of the input. *)
Lemma Fields_from_words (s : string) : forall (word w : string),
  w ∈ Fields_from s word ->
  w <> "" /\
  Forall (fun c => c ∈ list_ascii_of_string word \/
                   (c ∈ list_ascii_of_string s /\ is_space_byte c = false))
         (list_ascii_of_string w).
Proof.
  induction s as [|c s IH]; intros word w Hw; simpl in Hw.
  - case_bool_decide as Hword; [by apply elem_of_nil in Hw|].
    apply list_elem_of_singleton in Hw as ->. split; [done|].
    apply Forall_forall. intros c Hc. by left.
  - destruct (is_space_byte c) eqn:Hc.
    + assert (Hrest : w ∈ Fields_from s "" -> w <> "" /\
        Forall (fun c0 => c0 ∈ list_ascii_of_string word \/
                   (c0 ∈ list_ascii_of_string (String c s) /\ is_space_byte c0 = false))
               (list_ascii_of_string w)).
      { intros Hin. destruct (IH "" w Hin) as [Hne Hall]. split; [done|].
        eapply Forall_impl; [exact Hall|]. simpl.
        intros c0 [Hc0|[Hc0 Hs]]; [by apply elem_of_nil in Hc0|].
        right. split; [set_solver|done]. }
      case_bool_decide as Hword; [by apply Hrest|].
      apply elem_of_cons in Hw as [->|Hw]; [|by apply Hrest].
      split; [done|]. apply Forall_forall. intros c0 Hc0. by left.
    + destruct (IH _ w Hw) as [Hne Hall]. split; [done|].
      eapply Forall_impl; [exact Hall|]. simpl.
      intros c0 [Hc0|[Hc0 Hs]].
      * rewrite bytes_append in Hc0. simpl in Hc0.
        apply elem_of_app in Hc0 as [Hc0|Hc0]; [by left|].
        apply list_elem_of_singleton in Hc0 as ->. right. split; [set_solver|done].
      * right. split; [set_solver|done].
Qed.

Lemma sanitize_bytes (s : string) :
  Forall (fun c => is_word_byte c = true \/ is_regexp_space c = true)
         (list_ascii_of_string (sanitize s)).
Proof.
  induction s as [|c s IH]; simpl; [constructor|].
  constructor; [|exact IH].
  destruct (is_word_byte c) eqn:Hw; simpl; [by left|].
  destruct (is_regexp_space c) eqn:Hs; [by right|]. by right.
Qed.

Lemma extractKeywords_filter (ToLower : string -> string) (description : string) :
  extractKeywords ToLower description =
  List.filter (fun word => negb (bool_decide (word ∈ stopwords)) &&
                           (Z.of_nat (String.length word) >? 1))
              (Fields (sanitize (ToLower description))).
Proof. unfold extractKeywords. by rewrite filter_loop. Qed.

(** X3. Every keyword [extractKeywords] returns is at least two bytes
    long, is no stop word, and consists of ASCII letters, digits and
    underscores only. *)
Theorem extractKeywords_words (ToLower : string -> string)
    (description keyword : string) :
  keyword ∈ extractKeywords ToLower description ->
  (2 <= String.length keyword)%nat /\
  (keyword ∉ stopwords) /\
  Forall (fun c => is_word_byte c = true) (list_ascii_of_string keyword).
Proof.
  rewrite extractKeywords_filter. intros Hin.
  apply list_elem_of_In, filter_In in Hin as [Hin Hkeep].
  apply list_elem_of_In in Hin.
  apply andb_true_iff in Hkeep as [Hstop Hlen].
  apply negb_true_iff, bool_decide_eq_false in Hstop.
  apply Z.gtb_lt in Hlen. split_and!; [lia|done|].
  destruct (Fields_from_words _ _ _ Hin) as [_ Hbytes].
  pose proof (sanitize_bytes (ToLower description)) as Hsan.
  rewrite Forall_forall in Hbytes, Hsan |- *.
  intros c Hc. destruct (Hbytes c Hc) as [Hnil|[Hc' Hnospace]].
  { by apply elem_of_nil in Hnil. }
  destruct (Hsan c Hc') as [Hword|Hspace]; [done|].
  unfold is_space_byte in Hnospace. rewrite Hspace in Hnospace. done.
Qed.

Lemma extractKeywords_words_witness :
  (2 <= String.length "user")%nat /\
  ("user" ∉ stopwords) /\
  Forall (fun c => is_word_byte c = true) (list_ascii_of_string "user").
Proof.
  apply (extractKeywords_words asciiToLower "Get the user's e-mail!" "user").
  vm_compute. apply list_elem_of_here.
Defined.

(** ** More on the relationship graph *)

Lemma addRelationship_no_foreign_key g f :
  has_foreign_key f = false -> addRelationship g f = g.
Proof. intros Hfk. unfold addRelationship. by rewrite Hfk. Qed.

(** X10. The relationship graph depends only on the fields that
    have a foreign key: dropping the others from the catalog gives the same
    graph. *)
Theorem buildRelationshipGraph_foreign_keys_only (fields : list Field.t) :
  buildRelationshipGraph fields
  = buildRelationshipGraph (List.filter has_foreign_key fields).
Proof.
  unfold buildRelationshipGraph. generalize (∅ : Graph).
  induction fields as [|f fields IH]; intros g; simpl; [done|].
  destruct (has_foreign_key f) eqn:Hfk; simpl.
  - apply IH.
  - rewrite addRelationship_no_foreign_key by done. apply IH.
Qed.

Lemma built_edge_sym fields a b j :
  neighbors (buildRelationshipGraph fields) a !! b = Some j ->
  neighbors (buildRelationshipGraph fields) b !! a
  = Some (Join.mk b a (Join.Condition j)).
Proof.
  intros (l1 & f & l2 & E & Hd & Hl2 & ->)%built_edge_last.
  apply built_edge_last. exists l1, f, l2. split_and!; try done.
  - by apply declares_sym.
  - eapply Forall_impl; [exact Hl2|]. intros f' Hn Hd'. apply Hn.
    by apply declares_sym.
Qed.

Lemma built_edge_nodes fields a b j :
  neighbors (buildRelationshipGraph fields) a !! b = Some j ->
  a ∈ dom (buildRelationshipGraph fields) /\
  b ∈ dom (buildRelationshipGraph fields).
Proof.
  intros (l1 & f & l2 & -> & Hd & _)%built_edge_last.
  split; apply dom_buildRelationshipGraph.
  - exists f, b. split; [set_solver|done].
  - exists f, a. split; [set_solver|by apply declares_sym].
Qed.

(** X9. The tables of the relationship graph are the table and the
    foreign table of every field with a foreign key, and no others; both ends
    of every stored join are tables of the graph; and [FindJoinPath] from a
    table no such field names to a different table fails with the error that
    the table is not found. *)
Theorem buildRelationshipGraph_nodes (fields : list Field.t) :
  let g := buildRelationshipGraph fields in
  (forall a, a ∈ dom g <->
     exists f, f ∈ fields /\ has_foreign_key f = true /\
               (a = Field.TableName f \/ a = Field.ForeignTable f)) /\
  (forall a b j, neighbors g a !! b = Some j -> a ∈ dom g /\ b ∈ dom g) /\
  (forall (ord : MapOrder) (a b : string),
     a <> b ->
     (forall f, f ∈ fields -> has_foreign_key f = true ->
                a <> Field.TableName f /\ a <> Field.ForeignTable f) ->
     FindJoinPath ord g a b
     = Some (Err ("table " +:+ a +:+ " not found in relationship graph"))).
Proof.
  intros g.
  assert (Hdom : forall a, a ∈ dom g <->
     exists f, f ∈ fields /\ has_foreign_key f = true /\
               (a = Field.TableName f \/ a = Field.ForeignTable f)).
  { intros a. unfold g. rewrite dom_buildRelationshipGraph. split.
    - intros (f & b & Hin & Hfk & Hd). exists f. split_and!; [done..|]. naive_solver.
    - intros (f & Hin & Hfk & [->| ->]).
      + exists f, (Field.ForeignTable f). split; [done|]. split; auto.
      + exists f, (Field.TableName f). split; [done|]. split; auto. }
  split_and!; [exact Hdom|apply built_edge_nodes|].
  intros ord a b Hne Hnone. unfold FindJoinPath. rewrite decide_False by done.
  assert (Ha : g !! a = None).
  { apply not_elem_of_dom. rewrite Hdom. intros (f & Hin & Hfk & Hor).
    destruct (Hnone f Hin Hfk). naive_solver. }
  by rewrite Ha.
Qed.

(** *** Paths between neighbours, and paths reversed *)

Lemma path_to_joins_length g path :
  length (path_to_joins g path) = (length path - 1)%nat.
Proof.
  induction path as [|a [|b path] IH]; [done..|].
  change (path_to_joins g (a :: b :: path))
    with (edge_at g a b :: path_to_joins g (b :: path)).
  cbn [length] in *. rewrite IH. lia.
Qed.

Lemma neighbors_Some_node g a b j : neighbors g a !! b = Some j -> is_Some (g !! a).
Proof.
  unfold neighbors. destruct (g !! a); [eauto|]. simpl. by rewrite lookup_empty.
Qed.

(** Two different tables, one stored as a neighbour of the other, are
    joined by exactly the stored edge. *)
Lemma FindJoinPath_neighbour ord g a b j :
  valid_order ord -> a <> b -> is_Some (g !! b) ->
  neighbors g a !! b = Some j ->
  FindJoinPath ord g a b = Some (Ok [j]).
Proof.
  intros Hord Hne Hb Hj.
  assert (Hreach : reach g a 1 b).
  { eapply reach_S; [apply reach_O|]. unfold edge. by rewrite Hj. }
  destruct (FindJoinPath_present ord g a b Hord Hne) as
    [(path & -> & Hwalk & Hmin)|[_ Hno]]; [by eapply neighbors_Some_node|done| |].
  - specialize (Hmin 1%nat Hreach).
    inversion Hwalk as [|? x p ? Hax Hp]; subst; [done|].
    inversion Hp as [|? y p' ? Hxy Hp']; subst.
    + simpl. unfold edge_at. by rewrite Hj.
    + inversion Hp'; subst; simpl in Hmin; lia.
  - exfalso. by eapply Hno.
Qed.

(** X11. Between the table and the foreign table of a field with a
    foreign key, when these differ and no later field of the catalog declares
    the same pair, [FindJoinPath] returns the single join of that field, in
    either direction, under the field's condition string. *)
Theorem FindJoinPath_declared_pair (ord : MapOrder) (l1 : list Field.t)
    (f : Field.t) (l2 : list Field.t) :
  valid_order ord ->
  has_foreign_key f = true ->
  Field.TableName f <> Field.ForeignTable f ->
  Forall (fun f' => ~ declares f' (Field.TableName f) (Field.ForeignTable f)) l2 ->
  let g := buildRelationshipGraph (l1 ++ f :: l2) in
  let condition := Field.TableName f +:+ "." +:+ Field.ColumnName f +:+ " = " +:+
                   Field.ForeignTable f +:+ "." +:+ Field.ForeignKey f in
  FindJoinPath ord g (Field.TableName f) (Field.ForeignTable f)
  = Some (Ok [Join.mk (Field.TableName f) (Field.ForeignTable f) condition]) /\
  FindJoinPath ord g (Field.ForeignTable f) (Field.TableName f)
  = Some (Ok [Join.mk (Field.ForeignTable f) (Field.TableName f) condition]).
Proof.
  intros Hord Hfk Hne Hl2 g condition.
  assert (Hfwd : neighbors g (Field.TableName f) !! Field.ForeignTable f
                 = Some (Join.mk (Field.TableName f) (Field.ForeignTable f) condition)).
  { apply built_edge_last. exists l1, f, l2. split_and!; try done. split; auto. }
  pose proof (built_edge_sym _ _ _ _ Hfwd) as Hbwd. simpl in Hbwd.
  destruct (built_edge_nodes _ _ _ _ Hfwd) as [Ha Hb].
  apply elem_of_dom in Ha, Hb.
  split; apply FindJoinPath_neighbour; done.
Qed.

Lemma FindJoinPath_declared_pair_witness :
  let g := buildRelationshipGraph
             ([] ++ Field.mk "user_id" "orders" "customer_id" "user_ref"
                             "User who placed order" "INTEGER" "user_id" "users"
                             "user_id" :: []) in
  FindJoinPath ord_rev g "orders" "users"
  = Some (Ok [Join.mk "orders" "users"
                      ("orders" +:+ "." +:+ "user_id" +:+ " = " +:+
                       "users" +:+ "." +:+ "user_id")]) /\
  FindJoinPath ord_rev g "users" "orders"
  = Some (Ok [Join.mk "users" "orders"
                      ("orders" +:+ "." +:+ "user_id" +:+ " = " +:+
                       "users" +:+ "." +:+ "user_id")]).
Proof.
  apply (FindJoinPath_declared_pair ord_rev []
           (Field.mk "user_id" "orders" "customer_id" "user_ref"
                     "User who placed order" "INTEGER" "user_id" "users" "user_id")
           []).
  - exact valid_order_rev.
  - reflexivity.
  - simpl. discriminate.
  - constructor.
Defined.

Lemma reach_reverse g a n b :
  (forall x y, edge g x y -> edge g y x) -> reach g a n b -> reach g b n a.
Proof.
  intros Hsym. induction 1 as [|n b c Hab IH Hbc]; [apply reach_O|].
  eapply reach_cons; [by apply Hsym|exact IH].
Qed.

Lemma built_edge_symmetric fields x y :
  edge (buildRelationshipGraph fields) x y -> edge (buildRelationshipGraph fields) y x.
Proof. intros [j Hj]. unfold edge. by rewrite (built_edge_sym _ _ _ _ Hj). Qed.

(** X12. When [FindJoinPath] finds joins from one table to another
    in the graph of a catalog, it finds as many joins in the opposite
    direction, whatever the two orders of map iteration. *)
Theorem FindJoinPath_reverse_length (ord ord' : MapOrder) (fields : list Field.t)
    (a b : string) (joins : list Join.t) :
  valid_order ord -> valid_order ord' ->
  FindJoinPath ord (buildRelationshipGraph fields) a b = Some (Ok joins) ->
  exists joins',
    FindJoinPath ord' (buildRelationshipGraph fields) b a = Some (Ok joins') /\
    length joins' = length joins.
Proof.
  intros Hord Hord' Hab. set (g := buildRelationshipGraph fields) in *.
  destruct (decide (a = b)) as [->|Hne].
  { exists joins. unfold FindJoinPath in *. rewrite decide_True in * by done. done. }
  assert (Hpresent : is_Some (g !! a) /\ is_Some (g !! b)).
  { unfold FindJoinPath in Hab. rewrite decide_False in Hab by done.
    destruct (g !! a); [|done]. destruct (g !! b); [|done]. eauto. }
  destruct Hpresent as [Ha Hb].
  destruct (FindJoinPath_present ord g a b Hord Hne Ha Hb) as
    [(path & E & Hwalk & Hmin)|[E _]]; [|congruence].
  rewrite E in Hab. injection Hab as <-.
  assert (Hne' : b <> a) by congruence.
  destruct (FindJoinPath_present ord' g b a Hord' Hne' Hb Ha) as
    [(path' & E' & Hwalk' & Hmin')|[_ Hno]].
  - exists (path_to_joins g path'). split; [done|].
    rewrite !path_to_joins_length.
    apply walk_reach, (reach_reverse g) in Hwalk, Hwalk';
      try (intros x y; apply built_edge_symmetric).
    apply Hmin in Hwalk'. apply Hmin' in Hwalk. lia.
  - exfalso. apply walk_reach, (reach_reverse g) in Hwalk;
      [|intros x y; apply built_edge_symmetric].
    by eapply Hno.
Qed.

Lemma FindJoinPath_reverse_length_witness :
  exists joins',
    FindJoinPath ord_rev (buildRelationshipGraph sample_catalog) "products" "users"
    = Some (Ok joins') /\
    length joins' =
    length [Join.mk "users" "orders" "orders.user_id = users.user_id";
            Join.mk "orders" "order_items" "order_items.order_id = orders.order_id";
            Join.mk "order_items" "products"
                    "order_items.product_id = products.product_id"].
Proof.
  apply (FindJoinPath_reverse_length ord_id ord_rev sample_catalog "users" "products").
  - exact valid_order_id.
  - exact valid_order_rev.
  - vm_compute. reflexivity.
Defined.

(** *** A shortest path visits no table twice *)

Lemma walk_nonempty g a p b : walk g a p b -> exists p', p = a :: p'.
Proof. destruct 1; eauto. Qed.

Lemma walk_suffix g a p b x :
  walk g a p b -> x ∈ p ->
  exists q, walk g x q b /\ (length q <= length p)%nat.
Proof.
  induction 1 as [a|a y p c Hay Hw IH]; intros Hx.
  - apply list_elem_of_singleton in Hx as ->. exists [a]. split; [constructor|done].
  - apply elem_of_cons in Hx as [->|Hx].
    + exists (a :: p). split; [by econstructor|done].
    + destruct (IH Hx) as (q & Hq & Hlen). exists q. split; [done|simpl; lia].
Qed.

Lemma walk_shortest_NoDup g a p b :
  walk g a p b ->
  (forall n, reach g a n b -> (length p - 1 <= n)%nat) ->
  NoDup p.
Proof.
  induction 1 as [a|a y p c Hay Hw IH]; intros Hmin.
  - apply NoDup_singleton.
  - destruct (walk_nonempty _ _ _ _ Hw) as [p' ->].
    apply NoDup_cons. split.
    + intros Hin. destruct (walk_suffix _ _ _ _ a Hw Hin) as (q & Hq & Hlen).
      destruct (walk_nonempty _ _ _ _ Hq) as [q' ->].
      apply walk_reach, Hmin in Hq. simpl in *. lia.
    + apply IH. intros n Hn.
      assert (Hr : reach g a (S n) c) by (by eapply reach_cons).
      apply Hmin in Hr. simpl in *. lia.
Qed.

Lemma walk_path_tables g a p b :
  labelled g -> walk g a p b -> a :: (Join.To <$> path_to_joins g p) = p.
Proof.
  intros Hlab. induction 1 as [a|a y p c Hay Hw IH]; [done|].
  destruct (walk_nonempty _ _ _ _ Hw) as [p' ->].
  change (path_to_joins g (a :: y :: p'))
    with (edge_at g a y :: path_to_joins g (y :: p')).
  rewrite fmap_cons. f_equal. rewrite <- IH at 2. f_equal.
  destruct Hay as [j Hj]. unfold edge_at. rewrite Hj. simpl.
  by destruct (Hlab a y j Hj).
Qed.

(** X13. The joins [FindJoinPath] returns in the graph of a catalog
    lead to pairwise different tables, none of them the table the path
    starts from. *)
Theorem FindJoinPath_visits_tables_once (ord : MapOrder) (fields : list Field.t)
    (a b : string) (joins : list Join.t) :
  valid_order ord ->
  FindJoinPath ord (buildRelationshipGraph fields) a b = Some (Ok joins) ->
  NoDup (a :: (Join.To <$> joins)).
Proof.
  intros Hord Hab. set (g := buildRelationshipGraph fields) in *.
  destruct (decide (a = b)) as [->|Hne].
  { unfold FindJoinPath in Hab. rewrite decide_True in Hab by done.
    injection Hab as <-. apply NoDup_singleton. }
  assert (Hpresent : is_Some (g !! a) /\ is_Some (g !! b)).
  { unfold FindJoinPath in Hab. rewrite decide_False in Hab by done.
    destruct (g !! a); [|done]. destruct (g !! b); [|done]. eauto. }
  destruct Hpresent as [Ha Hb].
  destruct (FindJoinPath_present ord g a b Hord Hne Ha Hb) as
    [(path & E & Hwalk & Hmin)|[E _]]; [|congruence].
  rewrite E in Hab. injection Hab as <-.
  rewrite (walk_path_tables g a path b); [|apply labelled_buildRelationshipGraph|done].
  by eapply walk_shortest_NoDup.
Qed.

Lemma FindJoinPath_visits_tables_once_witness :
  NoDup ("users" :: (Join.To <$>
    [Join.mk "users" "orders" "orders.user_id = users.user_id";
     Join.mk "orders" "order_items" "order_items.order_id = orders.order_id";
     Join.mk "order_items" "products" "order_items.product_id = products.product_id"])).
Proof.
  apply (FindJoinPath_visits_tables_once ord_id sample_catalog "users" "products").
  - exact valid_order_id.
  - vm_compute. reflexivity.
Defined.

(** ** More on sorting and scoring *)

Section SortExtras.
Context {F : Type} `{Float64Order F}.
Implicit Types (ms : list (FieldMatch.t F)).

Lemma swap_if_less_fixed (i j : nat) ms :
  not_less ms i j -> swap_if_less i j ms = ms.
Proof.
  intros Hnl. unfold swap_if_less.
  destruct (ms !! i) as [a|] eqn:Ea; [|done].
  destruct (ms !! j) as [b|] eqn:Eb; [|done].
  by rewrite (Hnl a b Ea Eb).
Qed.

Lemma inner_upto_fixed (i k : nat) ms :
  (forall j, (i < j)%nat -> not_less ms i j) -> inner_upto i k ms = ms.
Proof.
  intros Hnl. induction k as [|k IH]; [done|].
  rewrite inner_upto_S, IH. apply swap_if_less_fixed, Hnl. lia.
Qed.

Lemma outer_upto_fixed (n : nat) ms :
  (forall i j, (i < j)%nat -> not_less ms i j) -> outer_upto n ms = ms.
Proof.
  intros Hnl. induction n as [|n IH]; [done|].
  rewrite outer_upto_S, IH, sort_inner_eq. apply inner_upto_fixed.
  intros j Hj. by apply Hnl.
Qed.

(** X4. [sortMatchesByScore] returns unchanged a list in which no
    score is below a later one, so that sorting a sorted list again changes
    nothing. *)
Theorem sortMatchesByScore_fixes_sorted ms :
  ((forall (i j : nat) (a b : FieldMatch.t F),
      (i < j)%nat -> ms !! i = Some a -> ms !! j = Some b ->
      f64_lt (FieldMatch.MatchScore a) (FieldMatch.MatchScore b) = false) ->
   sortMatchesByScore ms = ms) /\
  sortMatchesByScore (sortMatchesByScore ms) = sortMatchesByScore ms.
Proof.
  assert (Hfix : forall ms',
    (forall i j, (i < j)%nat -> not_less ms' i j) -> sortMatchesByScore ms' = ms').
  { intros ms' Hnl. apply (outer_upto_fixed (length ms') ms' Hnl). }
  split.
  - intros Hs. apply Hfix. intros i j Hij a b. by apply Hs.
  - apply Hfix. intros i j Hij. by apply sortMatchesByScore_sorted.
Qed.
End SortExtras.

Lemma sortMatchesByScore_fixes_sorted_witness :
  let ms := [FieldMatch.mk "user_id" "orders" "User who placed order" 100%float;
             FieldMatch.mk "email" "users" "User email address" 50%float;
             FieldMatch.mk "user_id" "users" "Unique identifier for user" 50%float] in
  sortMatchesByScore ms = ms.
Proof.
  apply (proj1 (sortMatchesByScore_fixes_sorted
           [FieldMatch.mk "user_id" "orders" "User who placed order" 100%float;
            FieldMatch.mk "email" "users" "User email address" 50%float;
            FieldMatch.mk "user_id" "users" "Unique identifier for user" 50%float])).
  intros i j a b Hij Ha Hb.
  destruct i as [|[|[|i]]]; destruct j as [|[|[|j]]]; simpl in Ha, Hb;
    simplify_eq; try lia; reflexivity.
Defined.

Lemma lower_byte_idempotent (c : ascii) : lower_byte (lower_byte c) = lower_byte c.
Proof.
  unfold lower_byte.
  destruct (Nat.leb 65 (nat_of_ascii c) && Nat.leb (nat_of_ascii c) 90)%bool eqn:E;
    [|by rewrite E].
  apply andb_true_iff in E as [H1%Nat.leb_le H2%Nat.leb_le].
  rewrite nat_ascii_embedding by lia.
  replace (Nat.leb (nat_of_ascii c + 32) 90) with false
    by (symmetry; apply Nat.leb_gt; lia).
  by rewrite andb_false_r.
Qed.

Lemma asciiToLower_idempotent (s : string) :
  asciiToLower (asciiToLower s) = asciiToLower s.
Proof.
  induction s as [|c s IH]; simpl; [done|]. by rewrite lower_byte_idempotent, IH.
Qed.

Section ScoreExtras.
Context {F : Type} `{Float64 F}.
Variable ToLower : string -> string.

Lemma keyword_hits_lowered (description : string) (keywords : list string) :
  (forall s, ToLower (ToLower s) = ToLower s) ->
  keyword_hits ToLower (ToLower description) (ToLower <$> keywords)
  = keyword_hits ToLower description keywords.
Proof.
  intros Hidem. unfold keyword_hits. rewrite Hidem.
  induction keywords as [|k ks IH]; [done|]. rewrite fmap_cons. simpl.
  rewrite Hidem. destruct (Contains _ _); simpl; by rewrite IH.
Qed.

(** X5. For an idempotent lower-casing function,
    [calculateMatchScore] gives a description and keywords that were
    lower-cased beforehand the score it gives the originals. *)
Theorem calculateMatchScore_ignores_case (description : string)
    (keywords : list string) :
  (forall s, ToLower (ToLower s) = ToLower s) ->
  calculateMatchScore ToLower (ToLower description) (ToLower <$> keywords)
  = calculateMatchScore ToLower description keywords.
Proof.
  intros Hidem.
  pose proof (keyword_hits_lowered description keywords Hidem) as Hhits.
  unfold calculateMatchScore, keyword_hits in *.
  destruct keywords as [|k ks]; [done|].
  set (ks0 := k :: ks) in *.
  change (ToLower <$> ks0) with (ToLower k :: (ToLower <$> ks)).
  cbv zeta. rewrite !count_loop, !Z.add_0_l.
  change (ToLower k :: (ToLower <$> ks)) with (ToLower <$> ks0).
  rewrite Hhits, length_fmap. done.
Qed.

(** X7. For a negative [maxMatches] the slice [matches[:maxMatches]]
    is out of range and [FindFieldMatches] panics; for a non-negative one it
    returns [maxMatches] matches or, when fewer fields reach the threshold,
    one match for each of these. *)
Theorem FindFieldMatches_count (fields : list Field.t) (keywords : list string)
    (threshold : F) (maxMatches : Z) :
  (maxMatches < 0 ->
   FindFieldMatches ToLower fields keywords threshold maxMatches
   = Panicked "slice bounds out of range") /\
  (0 <= maxMatches ->
   exists matches,
     FindFieldMatches ToLower fields keywords threshold maxMatches = Returned matches /\
     length matches =
     Nat.min (Z.to_nat maxMatches)
             (length (List.filter (qualifies ToLower keywords threshold) fields))).
Proof.
  split; [apply FindFieldMatches_negative_limit|].
  intros Hmax. unfold FindFieldMatches.
  set (sorted := sortMatchesByScore (collectMatches ToLower fields keywords threshold)).
  assert (Hlen : length sorted =
    length (List.filter (qualifies ToLower keywords threshold) fields)).
  { unfold sorted. rewrite sortMatchesByScore_perm, collectMatches_spec.
    by rewrite length_fmap. }
  destruct (Z.gtb_spec (Z.of_nat (length sorted)) maxMatches) as [Hgt|Hle].
  - destruct (Z.ltb_spec maxMatches 0); [lia|].
    eexists. split; [done|]. rewrite length_take, Hlen. done.
  - eexists. split; [done|]. rewrite <- Hlen. lia.
Qed.

Lemma collectMatches_no_keywords (fields : list Field.t) (threshold : F) :
  f64_lt (f64_of_int 0) threshold = true ->
  collectMatches ToLower fields [] threshold = [].
Proof.
  intros Hlt. rewrite collectMatches_spec.
  induction fields as [|f fs IH]; [done|]. simpl.
  unfold qualifies at 1. simpl. by rewrite Hlt.
Qed.

Lemma FindFieldMatches_none (fields : list Field.t) (keywords : list string)
    (threshold : F) (maxMatches : Z) :
  collectMatches ToLower fields keywords threshold = [] ->
  0 <= maxMatches ->
  FindFieldMatches ToLower fields keywords threshold maxMatches = Returned [].
Proof.
  intros Hnone Hmax. unfold FindFieldMatches. rewrite Hnone.
  change (sortMatchesByScore []) with (@nil (FieldMatch.t F)).
  change (Z.of_nat (length (@nil (FieldMatch.t F)))) with 0.
  destruct (Z.gtb_spec 0 maxMatches); [lia|reflexivity].
Qed.

(** X8. With no keyword every field scores 0, so for a threshold
    above 0 and a non-negative [maxMatches], [FindFieldMatches] returns no
    match. *)
Theorem FindFieldMatches_no_keywords (fields : list Field.t) (threshold : F)
    (maxMatches : Z) :
  f64_lt (f64_of_int 0) threshold = true ->
  0 <= maxMatches ->
  FindFieldMatches ToLower fields [] threshold maxMatches = Returned [].
Proof.
  intros Hlt Hmax. apply FindFieldMatches_none; [|done].
  by apply collectMatches_no_keywords.
Qed.
End ScoreExtras.

Lemma calculateMatchScore_ignores_case_witness :
  calculateMatchScore (F:=float) asciiToLower
    (asciiToLower "User Email Address") (asciiToLower <$> ["EMAIL"; "user"])
  = calculateMatchScore asciiToLower "User Email Address" ["EMAIL"; "user"].
Proof.
  apply (calculateMatchScore_ignores_case asciiToLower "User Email Address"
           ["EMAIL"; "user"]).
  exact asciiToLower_idempotent.
Defined.

Lemma FindFieldMatches_no_keywords_witness :
  FindFieldMatches asciiToLower sample_catalog [] 30%float 10 = Returned [].
Proof.
  apply (FindFieldMatches_no_keywords (F:=float) asciiToLower sample_catalog 30%float 10).
  - vm_compute. reflexivity.
  - lia.
Defined.

(** ** Scores in exact arithmetic *)

Lemma filter_length_le {A} (p : A -> bool) (l : list A) :
  (length (List.filter p l) <= length l)%nat.
Proof. induction l as [|x l IH]; simpl; [done|]. destruct (p x); simpl; lia. Qed.

Lemma filter_length_all {A} (p : A -> bool) (l : list A) :
  length (List.filter p l) = length l <-> Forall (fun x => p x = true) l.
Proof.
  induction l as [|x l IH]; simpl.
  - split; [constructor|done].
  - pose proof (filter_length_le p l). rewrite Forall_cons.
    destruct (p x) eqn:E; simpl.
    + rewrite <- IH. split; [intros; split; [done|lia]|intros [_ ->]; done].
    + split; [lia|intros [? _]; done].
Qed.


Lemma FindFieldMatches_count_witness :
  FindFieldMatches (F:=float) asciiToLower sample_catalog ["order"] 30%float (-1)
  = Panicked "slice bounds out of range" /\
  exists matches,
    FindFieldMatches (F:=float) asciiToLower sample_catalog ["order"] 30%float 2
    = Returned matches /\
    length matches =
    Nat.min (Z.to_nat 2)
            (length (List.filter (qualifies asciiToLower ["order"] 30%float)
                                 sample_catalog)).
Proof.
  split.
  - apply (proj1 (FindFieldMatches_count (F:=float) asciiToLower sample_catalog
                    ["order"] 30%float (-1))). lia.
  - apply (proj2 (FindFieldMatches_count (F:=float) asciiToLower sample_catalog
                    ["order"] 30%float 2)). lia.
Defined.

(** ** The assembler on one table, and on tables the graph lacks *)

Section AssemblerExtras.
Context {F : Type} `{Float64 F}.
Implicit Types (matches : list (FieldMatch.t F)).

Lemma tableNames_single ord (first : FieldMatch.t F) rest :
  valid_order ord ->
  Forall (fun m => FieldMatch.TableName m = FieldMatch.TableName first) rest ->
  tableNames ord (first :: rest) = [FieldMatch.TableName first].
Proof.
  intros Hord Hrest.
  assert (Hperm : tableNames ord (first :: rest) ≡ₚ [FieldMatch.TableName first]).
  { apply NoDup_Permutation.
    - by apply tableNames_NoDup.
    - apply NoDup_singleton.
    - intros t. rewrite elem_of_tableNames by done.
      rewrite list_elem_of_singleton, fmap_cons, elem_of_cons.
      split; [|by left]. intros [->|Ht]; [done|].
      apply list_elem_of_fmap in Ht as (m & -> & Hm).
      by apply (proj1 (Forall_forall _ _) Hrest). }
  by apply Permutation_singleton_r in Hperm.
Qed.

(** X14. When every match names the same non-empty table,
    [buildSQLQuery] consults neither the relationship graph nor the order of
    map iteration: it returns no join and the query SELECT ... FROM table
    alias, followed by the GROUP BY clause for a GROUP query and by the LIMIT
    clause for a positive limit. *)
Theorem buildSQLQuery_single_table (ord : MapOrder) (g : Graph)
    (first : FieldMatch.t F) (rest : list (FieldMatch.t F))
    (queryType : string) (distinct : bool) (limit : Z) :
  valid_order ord ->
  FieldMatch.TableName first <> "" ->
  Forall (fun m => FieldMatch.TableName m = FieldMatch.TableName first) rest ->
  buildSQLQuery ord g (first :: rest) queryType distinct limit =
  Some (Returned (Ok
    ("SELECT " +:+ selectClause first (first :: rest) queryType distinct +:+
     " FROM " +:+ FieldMatch.TableName first +:+ " " +:+
     first_byte (FieldMatch.TableName first) +:+
     (if decide (queryType = "GROUP") then " GROUP BY " +:+ qualified first else "") +:+
     (if limit >? 0 then " LIMIT " +:+ pretty limit else ""),
     []))).
Proof.
  intros Hord Hne Hrest.
  rewrite (buildSQLQuery_planned ord g (first :: rest) first rest
             (FieldMatch.TableName first) [] [] queryType distinct limit);
    [|done|by apply tableNames_single|done|done|done].
  do 3 f_equal. unfold assemble. simpl.
  assert (Happ : forall s : string, s +:+ "" = s).
  { induction s as [|c s IH]; [done|].
    change (String c s +:+ "") with (String c (s +:+ "")). by rewrite IH. }
  assert (Hassoc : forall s t u : string, (s +:+ t) +:+ u = s +:+ (t +:+ u)).
  { induction s as [|c s IH]; intros t u; [done|].
    change (String c s +:+ t) with (String c (s +:+ t)).
    change (String c (s +:+ t) +:+ u) with (String c ((s +:+ t) +:+ u)).
    change (String c s +:+ (t +:+ u)) with (String c (s +:+ (t +:+ u))).
    by rewrite IH. }
  destruct (decide (queryType = "GROUP")) as [Hg|Hg];
    destruct (limit >? 0) eqn:Hl; simpl;
    repeat (rewrite decide_True by done || rewrite decide_False by (intros ?; done));
    cbn; rewrite ?Hassoc, ?Happ; reflexivity.
Qed.

Lemma FindJoinPath_Ok_present ord g a b js :
  a <> b -> FindJoinPath ord g a b = Some (Ok js) ->
  is_Some (g !! a) /\ is_Some (g !! b).
Proof.
  intros Hne. unfold FindJoinPath. rewrite decide_False by done.
  destruct (g !! a); [|done]. destruct (g !! b); [|done]. eauto.
Qed.

Lemma collectJoins_Err_prefix ord g primary others : forall i acc e,
  collectJoins ord g primary others i acc = Some (Err e) ->
  exists e', e = "failed to find join path: " +:+ e'.
Proof.
  induction others as [|t others IH]; intros i acc e; simpl; [done|].
  destruct (FindJoinPath _ g primary t) as [[js|e0]|]; [|by eexists; simplify_eq|done].
  apply IH.
Qed.

Lemma collectJoins_Ok_present ord g primary others : forall i acc js,
  primary ∉ others -> others <> [] ->
  collectJoins ord g primary others i acc = Some (Ok js) ->
  is_Some (g !! primary) /\ Forall (fun t => is_Some (g !! t)) others.
Proof.
  induction others as [|t others IH]; intros i acc js Hnot Hne; [done|]. simpl.
  destruct (FindJoinPath _ g primary t) as [[js0|e0]|] eqn:Hpath; [|done|done].
  apply FindJoinPath_Ok_present in Hpath as [Hp Ht]; [|set_solver].
  intros Hrest. split; [done|]. constructor; [done|].
  destruct others as [|t' others']; [done|].
  eapply IH in Hrest as [_ Hall]; [done|set_solver|done].
Qed.

(** X15. When the matches name at least two different tables and
    one of the tables they name is not in the relationship graph,
    [buildSQLQuery] returns an error that starts with "failed to find join
    path: ", for every valid order of map iteration. *)
Theorem buildSQLQuery_missing_table (ord : MapOrder) (g : Graph)
    (matches : list (FieldMatch.t F)) (m1 m2 m : FieldMatch.t F)
    (queryType : string) (distinct : bool) (limit : Z) :
  valid_order ord ->
  m1 ∈ matches -> m2 ∈ matches ->
  FieldMatch.TableName m1 <> FieldMatch.TableName m2 ->
  m ∈ matches -> g !! FieldMatch.TableName m = None ->
  exists e,
    buildSQLQuery ord g matches queryType distinct limit
    = Some (Returned (Err ("failed to find join path: " +:+ e))).
Proof.
  intros Hord Hm1 Hm2 Hne Hm Hg.
  destruct matches as [|first rest]; [by apply elem_of_nil in Hm|].
  unfold buildSQLQuery.
  pose proof (tableNames_NoDup ord (first :: rest) Hord) as Hnd.
  pose proof (elem_of_tableNames ord (first :: rest)) as Hin.
  destruct (tableNames ord (first :: rest)) as [|primary others] eqn:Hnames.
  { exfalso. eapply (not_elem_of_nil (FieldMatch.TableName m)), Hin; [done|].
    by apply list_elem_of_fmap_2. }
  destruct others as [|second others].
  { exfalso. apply Hne.
    assert (H1 : FieldMatch.TableName m1 ∈ [primary])
      by (by apply Hin; [|apply list_elem_of_fmap_2]).
    assert (H2 : FieldMatch.TableName m2 ∈ [primary])
      by (by apply Hin; [|apply list_elem_of_fmap_2]).
    apply list_elem_of_singleton in H1, H2. congruence. }
  apply NoDup_cons in Hnd as [Hnot _].
  unfold planJoins.
  destruct (collectJoins_total ord g primary (second :: others) 1 [] Hord) as [r Hr].
  rewrite Hr. destruct r as [js|e].
  - exfalso.
    apply collectJoins_Ok_present in Hr as [Hp Hall]; [|done|done].
    assert (Ht : FieldMatch.TableName m ∈ primary :: second :: others)
      by (by apply Hin; [|apply list_elem_of_fmap_2]).
    apply elem_of_cons in Ht as [Ht|Ht].
    + rewrite Ht in Hg. rewrite Hg in Hp. by destruct Hp.
    + apply (proj1 (Forall_forall _ _) Hall) in Ht. rewrite Hg in Ht. by destruct Ht.
  - apply collectJoins_Err_prefix in Hr as [e' ->]. by exists e'.
Qed.
End AssemblerExtras.

Lemma buildSQLQuery_single_table_witness :
  buildSQLQuery ord_rev ∅
    [FieldMatch.mk "email" "users" "User email address" 100%float;
     FieldMatch.mk "user_id" "users" "Unique identifier for user" 50%float]
    "SELECT" true 10
  = Some (Returned (Ok
      ("SELECT DISTINCT users.email, users.user_id FROM users u LIMIT 10", []))).
Proof.
  apply (buildSQLQuery_single_table ord_rev ∅
           (FieldMatch.mk "email" "users" "User email address" 100%float)
           [FieldMatch.mk "user_id" "users" "Unique identifier for user" 50%float]
           "SELECT" true 10).
  - exact valid_order_rev.
  - simpl. discriminate.
  - repeat constructor.
Defined.

Lemma buildSQLQuery_missing_table_witness :
  exists e,
    buildSQLQuery ord_rev sample_graph
      [FieldMatch.mk "email" "users" "User email address" 100%float;
       FieldMatch.mk "sku" "warehouse" "Stock keeping unit" 50%float]
      "SELECT" false 10
    = Some (Returned (Err ("failed to find join path: " +:+ e))).
Proof.
  apply (buildSQLQuery_missing_table ord_rev sample_graph
           [FieldMatch.mk "email" "users" "User email address" 100%float;
            FieldMatch.mk "sku" "warehouse" "Stock keeping unit" 50%float]
           (FieldMatch.mk "email" "users" "User email address" 100%float)
           (FieldMatch.mk "sku" "warehouse" "Stock keeping unit" 50%float)
           (FieldMatch.mk "sku" "warehouse" "Stock keeping unit" 50%float)
           "SELECT" false 10).
  - exact valid_order_rev.
  - apply list_elem_of_here.
  - apply list_elem_of_further, list_elem_of_here.
  - simpl. discriminate.
  - apply list_elem_of_further, list_elem_of_here.
  - vm_compute. reflexivity.
Defined.

(** ** The JOIN clauses *)

Lemma introducing_once (allJoins : list Join.t) : forall introduced,
  NoDup introduced ->
  sublist (introducing allJoins introduced) allJoins /\
  NoDup ((Join.To <$> introducing allJoins introduced) ++ introduced) /\
  (forall j, j ∈ allJoins ->
     Join.To j ∈ (Join.To <$> introducing allJoins introduced) ++ introduced).
Proof.
  induction allJoins as [|j rest IH]; intros introduced Hnd; simpl.
  - split_and!; [done|done|]. intros j Hj. by apply elem_of_nil in Hj.
  - case_bool_decide as Hin.
    + destruct (IH introduced Hnd) as (Hsub & Hnd' & Hcover).
      split_and!; [by apply sublist_cons|done|].
      intros j' [->|Hj']%elem_of_cons; [|by apply Hcover].
      apply elem_of_app. by right.
    + destruct (IH (Join.To j :: introduced)) as (Hsub & Hnd' & Hcover).
      { by apply NoDup_cons. }
      split_and!.
      * by apply sublist_skip.
      * rewrite fmap_cons. simpl.
        by rewrite Permutation_middle.
      * intros j' Hj'. rewrite fmap_cons. simpl.
        apply elem_of_cons in Hj' as [->|Hj']; [by left|].
        apply Hcover in Hj'. set_solver.
Qed.

(** X16. The JOIN clauses of a query are those of a subsequence of
    the planned joins whose target tables are pairwise different and differ
    from the primary table, and the target of every planned join is the
    primary table or among them. *)
Theorem joinClauses_tables_once (allJoins : list Join.t) (primary : string)
    (clauses : list string) :
  joinClauses allJoins [] {[primary := true]} = Returned clauses ->
  exists used,
    clauses = (fun j => "JOIN " +:+ Join.To j +:+ " " +:+ first_byte (Join.To j)
                        +:+ " ON " +:+ Join.Condition j) <$> used /\
    sublist used allJoins /\
    NoDup (primary :: (Join.To <$> used)) /\
    (forall j, j ∈ allJoins -> Join.To j ∈ primary :: (Join.To <$> used)).
Proof.
  intros Hret.
  apply (joinClauses_introducing allJoins [] {[primary := true]} [primary]) in Hret.
  - exists (introducing allJoins [primary]).
    destruct (introducing_once allJoins [primary]) as (Hsub & Hnd & Hcover).
    { apply NoDup_singleton. }
    split_and!; [done|done| |].
    + by rewrite Permutation_cons_append.
    + intros j Hj. apply Hcover in Hj. set_solver.
  - intros t. rewrite list_elem_of_singleton.
    destruct (decide (t = primary)) as [->|Hne].
    + by rewrite lookup_singleton_eq.
    + rewrite lookup_singleton_ne by done. simpl. split; [done|congruence].
Qed.

Lemma joinClauses_tables_once_witness :
  exists used,
    ["JOIN orders o ON orders.user_id = users.user_id"]
    = (fun j => "JOIN " +:+ Join.To j +:+ " " +:+ first_byte (Join.To j)
                +:+ " ON " +:+ Join.Condition j) <$> used /\
    sublist used [Join.mk "users" "orders" "orders.user_id = users.user_id";
                  Join.mk "orders" "users" "orders.user_id = users.user_id";
                  Join.mk "users" "orders" "orders.user_id = users.user_id"] /\
    NoDup ("users" :: (Join.To <$> used)) /\
    (forall j, j ∈ [Join.mk "users" "orders" "orders.user_id = users.user_id";
                    Join.mk "orders" "users" "orders.user_id = users.user_id";
                    Join.mk "users" "orders" "orders.user_id = users.user_id"] ->
       Join.To j ∈ "users" :: (Join.To <$> used)).
Proof.
  apply (joinClauses_tables_once
           [Join.mk "users" "orders" "orders.user_id = users.user_id";
            Join.mk "orders" "users" "orders.user_id = users.user_id";
            Join.mk "users" "orders" "orders.user_id = users.user_id"]
           "users").
  vm_compute. reflexivity.
Defined.

(** ** Fuzzy keyword expansion *)

Section FuzzyExtras.
Variables (ToLower : string -> string) (Fields : string -> list string)
          (fuzzyFind : string -> list string -> list string).

Lemma appendTopMatches_spec (matches : list string) : forall (i : nat) acc,
  appendTopMatches acc matches i = acc ++ take (3 - i) matches.
Proof.
  induction matches as [|m rest IH]; intros i acc; simpl.
  - by rewrite take_nil, app_nil_r.
  - destruct (Z.geb_spec (Z.of_nat i) 3) as [Hge|Hlt].
    + replace (3 - i)%nat with 0%nat by lia. by rewrite app_nil_r.
    + rewrite IH. replace (3 - i)%nat with (S (3 - S i)) by lia.
      simpl. by rewrite <- app_assoc.
Qed.

Lemma enhanceLoop_spec ord unique (keywords : list string) : forall (k : nat) acc,
  enhanceLoop fuzzyFind ord unique keywords k acc =
  acc ++ concat (imap (fun i keyword =>
                         take 3 (fuzzyFind keyword
                                   (stringMapToSlice (sub (k + i) ord) unique)))
                      keywords).
Proof.
  induction keywords as [|kw rest IH]; intros k acc; simpl.
  - by rewrite app_nil_r.
  - rewrite IH, appendTopMatches_spec, <- app_assoc. simpl.
    rewrite Nat.add_0_r. do 3 f_equal.
    apply imap_ext. intros i x _. simpl. do 4 f_equal. lia.
Qed.

Lemma elem_of_uniqueFieldWords (words : list string) (w : string) :
  is_Some (uniqueFieldWords words !! w) <-> w ∈ words.
Proof.
  unfold uniqueFieldWords.
  assert (Hgen : forall m : gmap string bool,
    is_Some (foldl (fun m word => <[word := true]> m) m words !! w)
    <-> w ∈ words \/ is_Some (m !! w)).
  { induction words as [|x words IH]; intros m; simpl.
    - split; [by right|]. intros [Hin|Hm]; [by apply elem_of_nil in Hin|done].
    - rewrite IH, elem_of_cons. destruct (decide (w = x)) as [->|Hne].
      + rewrite lookup_insert_eq. split; [by left; left|by right].
      + rewrite lookup_insert_ne by done. naive_solver. }
  rewrite Hgen, lookup_empty. split; [|by left].
  intros [Hin|Hm]; [done|by destruct Hm].
Qed.

Lemma elem_of_fieldWords (fields : list Field.t) (w : string) :
  w ∈ fieldWords ToLower Fields fields
  <-> exists f, f ∈ fields /\ w ∈ Fields (ToLower (Field.Description f)).
Proof.
  unfold fieldWords.
  assert (Hgen : forall acc,
    w ∈ foldl (fun fieldWords field =>
                 fieldWords ++ Fields (ToLower (Field.Description field)))
              acc fields
    <-> w ∈ acc \/ exists f, f ∈ fields /\ w ∈ Fields (ToLower (Field.Description f))).
  { induction fields as [|f fields IH]; intros acc; simpl.
    - split; [by left|]. intros [Hin|(f & Hf & _)]; [done|by apply elem_of_nil in Hf].
    - rewrite IH, elem_of_app. split.
      + intros [[Hacc|Hf]|(f' & Hf' & Hw)]; [by left| |].
        * right. exists f. split; [by left|done].
        * right. exists f'. split; [by right|done].
      + intros [Hacc|(f' & [->|Hf']%elem_of_cons & Hw)];
          [by left; left|by left; right|right; by exists f']. }
  rewrite Hgen. split; [|by right]. intros [Hin|Hex]; [by apply elem_of_nil in Hin|done].
Qed.

Lemma concat_imap_length {A B} (f : nat -> A -> list B) (n : nat) (l : list A) :
  (forall i x, length (f i x) <= n)%nat ->
  (length (concat (imap f l)) <= n * length l)%nat.
Proof.
  revert f. induction l as [|x l IH]; intros f Hf; simpl; [lia|].
  rewrite length_app. specialize (IH (f ∘ S)). specialize (Hf 0%nat x) as Hx.
  assert (length (concat (imap (f ∘ S) l)) <= n * length l)%nat
    by (apply IH; intros i y; apply Hf).
  lia.
Qed.

Lemma Forall2_imap {A B} (P : A -> B -> Prop) (f : nat -> A -> B) (l : list A) :
  (forall i x, P x (f i x)) -> Forall2 P l (imap f l).
Proof.
  revert f. induction l as [|x l IH]; intros f Hf; simpl; constructor; [done|].
  apply IH. intros i y. apply Hf.
Qed.

(** X19. [EnhanceDescriptionWithFuzzy] returns the keywords it was
    given, in order, followed by one group of added words for each keyword,
    in the order of the keywords: the first three words, or all when there
    are fewer, that [fuzzy.Find] returns for that keyword. *)
Theorem EnhanceDescriptionWithFuzzy_extends (ord : MapOrder) (keywords : list string)
    (fields : list Field.t) :
  exists groups,
    EnhanceDescriptionWithFuzzy ToLower Fields fuzzyFind ord keywords fields
    = keywords ++ concat groups /\
    Forall2 (fun keyword group =>
               (length group <= 3)%nat /\
               exists targets, group = take 3 (fuzzyFind keyword targets))
            keywords groups.
Proof.
  unfold EnhanceDescriptionWithFuzzy.
  rewrite enhanceLoop_spec. eexists. split; [reflexivity|].
  apply Forall2_imap. intros i keyword. split; [rewrite length_take; lia|].
  by eexists.
Qed.

(** X20. When [fuzzy.Find] returns only words of the list it
    searches, every word [EnhanceDescriptionWithFuzzy] returns is one of the
    given keywords or a word of the lower-cased description of a catalog
    field. *)
Theorem EnhanceDescriptionWithFuzzy_words (ord : MapOrder) (keywords : list string)
    (fields : list Field.t) (w : string) :
  valid_order ord ->
  (forall keyword targets t, t ∈ fuzzyFind keyword targets -> t ∈ targets) ->
  w ∈ EnhanceDescriptionWithFuzzy ToLower Fields fuzzyFind ord keywords fields ->
  w ∈ keywords \/
  exists f, f ∈ fields /\ w ∈ Fields (ToLower (Field.Description f)).
Proof.
  intros Hord Hfind. unfold EnhanceDescriptionWithFuzzy.
  rewrite enhanceLoop_spec. intros [Hw|Hw]%elem_of_app; [by left|right].
  apply list_elem_of_In, in_concat in Hw as (l & Hl%list_elem_of_In & Hw%list_elem_of_In).
  apply elem_of_lookup_imap in Hl as (i & kw & -> & _).
  apply elem_of_take in Hw as (j & Hj & _).
  apply list_elem_of_lookup_2, Hfind in Hj.
  unfold stringMapToSlice in Hj.
  apply elem_of_range_keys in Hj; [|by apply valid_order_sub].
  by apply elem_of_uniqueFieldWords, elem_of_fieldWords in Hj.
Qed.
End FuzzyExtras.

Lemma EnhanceDescriptionWithFuzzy_words_witness :
  "email" ∈ ["mail"] \/
  exists f, f ∈ sample_catalog /\
            "email" ∈ Fields (asciiToLower (Field.Description f)).
Proof.
  apply (EnhanceDescriptionWithFuzzy_words asciiToLower Fields
           (fun keyword targets => List.filter (fun t => Contains t keyword) targets)
           ord_rev ["mail"] sample_catalog "email").
  - exact valid_order_rev.
  - intros keyword targets t Ht.
    by apply list_elem_of_In, filter_In in Ht as [Ht%list_elem_of_In _].
  - vm_compute. apply list_elem_of_further, list_elem_of_here.
Defined.

(** ** The pipeline *)


Lemma walk_path_stored g a p b :
  walk g a p b -> Forall (stored g) (path_to_joins g p).
Proof.
  induction 1 as [a|a y p c Hay Hw IH]; [constructor|].
  destruct (walk_nonempty _ _ _ _ Hw) as [p' ->].
  change (path_to_joins g (a :: y :: p'))
    with (edge_at g a y :: path_to_joins g (y :: p')).
  constructor; [|done].
  destruct Hay as [j Hj]. exists a, y. unfold edge_at. by rewrite Hj.
Qed.

Lemma FindJoinPath_stored ord g a b js :
  valid_order ord -> FindJoinPath ord g a b = Some (Ok js) -> Forall (stored g) js.
Proof.
  intros Hord Hjs. destruct (decide (a = b)) as [->|Hne].
  - unfold FindJoinPath in Hjs. rewrite decide_True in Hjs by done.
    simplify_eq. constructor.
  - destruct (FindJoinPath_Ok_present ord g a b js Hne Hjs) as [Ha Hb].
    destruct (FindJoinPath_present ord g a b Hord Hne Ha Hb)
      as [(path & Hpath & Hwalk & _)|[Herr _]]; [|congruence].
    rewrite Hpath in Hjs. simplify_eq. by eapply walk_path_stored.
Qed.

Lemma collectJoins_stored ord g primary others : forall i acc js,
  valid_order ord -> Forall (stored g) acc ->
  collectJoins ord g primary others i acc = Some (Ok js) -> Forall (stored g) js.
Proof.
  induction others as [|t others IH]; intros i acc js Hord Hacc; simpl.
  - intros. by simplify_eq.
  - destruct (FindJoinPath _ g primary t) as [[js0|e0]|] eqn:Hpath; [|done|done].
    apply IH; [done|]. apply Forall_app. split; [done|].
    eapply FindJoinPath_stored; [|exact Hpath]. by do 2 apply valid_order_sub.
Qed.

Lemma planJoins_stored ord g names allJoins :
  valid_order ord -> planJoins ord g names = Some (Ok allJoins) ->
  Forall (stored g) allJoins.
Proof.
  intros Hord. unfold planJoins.
  destruct names as [|primary [|second others]]; [intros; by simplify_eq..|].
  destruct (collectJoins ord g primary (second :: others) 1 []) as [[js|e]|] eqn:Hjs;
    [|done|done].
  intros. simplify_eq.
  apply collectJoins_stored in Hjs; [|done|constructor].
  apply Forall_forall. intros j Hj.
  rewrite (deduplicateJoins_keep_last (sub 2 ord) js) in Hj by (by apply valid_order_sub).
  apply keep_last_subset in Hj. by apply (proj1 (Forall_forall _ _) Hjs).
Qed.

(** In the graph of a catalog whose table names are not empty, no stored
    join leads to the empty table name. *)
Lemma built_stored_To fields j :
  (forall f, f ∈ fields -> Field.TableName f <> "") ->
  stored (buildRelationshipGraph fields) j -> Join.To j <> "".
Proof.
  intros Hne (a & b & Hj).
  destruct (labelled_buildRelationshipGraph fields a b j Hj) as [_ ->].
  apply built_edge_nodes in Hj as [_ Hb].
  apply dom_buildRelationshipGraph in Hb as (f & c & Hf & Hfk & Hcase).
  unfold has_foreign_key in Hfk. apply negb_true_iff, orb_false_iff in Hfk as [Hft _].
  apply bool_decide_eq_false in Hft.
  destruct Hcase as [[-> _]|[-> _]]; [by apply Hne|done].
Qed.

Section PipelineExtras.
Context {F : Type} `{Float64 F}.
Variable ToLower : string -> string.

Lemma FindFieldMatches_from_catalog fields keywords threshold maxMatches matches m :
  FindFieldMatches ToLower fields keywords threshold maxMatches = Returned matches ->
  m ∈ matches ->
  exists f, f ∈ fields /\ FieldMatch.TableName m = Field.TableName f.
Proof.
  unfold FindFieldMatches.
  set (sorted := sortMatchesByScore _).
  assert (Hsorted : forall x, x ∈ sorted ->
            exists f, f ∈ fields /\ FieldMatch.TableName x = Field.TableName f).
  { intros x Hx. unfold sorted in Hx.
    rewrite sortMatchesByScore_perm, collectMatches_spec in Hx.
    apply list_elem_of_fmap in Hx as (f & -> & Hf).
    apply list_elem_of_In, filter_In in Hf as [Hf%list_elem_of_In _]. by exists f. }
  intros Hret Hm. apply Hsorted.
  destruct (_ >? _); [destruct (_ <? _); [done|]|]; simplify_eq; [|done].
  apply elem_of_take in Hm as (i & Hi & _). by eapply list_elem_of_lookup_2.
Qed.

Lemma buildSQLQuery_Err_prefix ord g (matches : list (FieldMatch.t F))
    queryType distinct limit e :
  matches <> [] ->
  buildSQLQuery ord g matches queryType distinct limit = Some (Returned (Err e)) ->
  exists e', e = "failed to find join path: " +:+ e'.
Proof.
  intros Hne. unfold buildSQLQuery. destruct matches as [|first rest]; [done|].
  destruct (tableNames ord (first :: rest)) as [|primary others]; [done|].
  destruct (planJoins ord g (primary :: others)) as [[js|e0]|] eqn:Hplan; [| |done].
  - destruct (slice_0_1 primary); [|done]. by destruct (joinClauses _ _ _).
  - intros. simplify_eq. unfold planJoins in Hplan.
    destruct others as [|second others]; [done|].
    destruct (collectJoins ord g primary (second :: others) 1 []) as [[js|e1]|] eqn:Hjs;
      simplify_eq.
    by eapply collectJoins_Err_prefix.
Qed.

(** X18. On a service loaded from records whose table names are not
    empty, and for every valid order of map iteration, [GenerateQuery] never
    panics: the matcher returns at most ten matches, and the call returns
    either the error "no matching fields found for description" (no match),
    or an error starting with "failed to build SQL query: failed to find join
    path: ", or a response holding the query and joins of [buildSQLQuery],
    the matches, their confidence and the elapsed time. *)
Theorem GenerateQuery_outcomes (ord : MapOrder) (records : list (list string))
    (request : QueryRequest.t) (elapsed : Z) :
  valid_order ord ->
  (forall f, f ∈ loadRecords [] records -> Field.TableName f <> "") ->
  let s := NewFieldService records in
  let keywords := extractKeywords ToLower (QueryRequest.Description request) in
  let kind := identifyQueryType ToLower (QueryRequest.Description request) in
  exists matches,
    FindFieldMatches ToLower (FieldService.fields s) keywords (f64_of_int 30) 10
    = Returned matches /\
    (length matches <= 10)%nat /\
    ((matches = [] /\
      GenerateQuery ToLower ord s request elapsed
      = Some (Returned (Err "no matching fields found for description"))) \/
     (matches <> [] /\
      exists e,
        GenerateQuery ToLower ord s request elapsed
        = Some (Returned (Err ("failed to build SQL query: failed to find join path: "
                               +:+ e)))) \/
     (matches <> [] /\
      exists query joins,
        buildSQLQuery ord (FieldService.relationshipGraph s) matches kind.1 kind.2
                      (QueryRequest.Limit request)
        = Some (Returned (Ok (query, joins))) /\
        GenerateQuery ToLower ord s request elapsed
        = Some (Returned (Ok (QueryResponse.mk query matches joins
                                (calculateConfidence matches) elapsed))))).
Proof.
  intros Hord Hne s keywords kind. unfold kind.
  destruct (identifyQueryType ToLower (QueryRequest.Description request))
    as [queryType distinct] eqn:Htype.
  unfold GenerateQuery. rewrite Htype. fold keywords. cbn [fst snd].
  destruct (FindFieldMatches ToLower (FieldService.fields s) keywords (f64_of_int 30) 10)
    as [matches|msg] eqn:Hmatches.
  2:{ exfalso. unfold FindFieldMatches in Hmatches.
      destruct (_ >? _) in Hmatches;
        [change (10 <? 0) with false in Hmatches|]; done. }
  exists matches. split; [done|].
  assert (Hlen : (length matches <= 10)%nat).
  { unfold FindFieldMatches in Hmatches.
    destruct (Z.gtb_spec (Z.of_nat (length (sortMatchesByScore
      (collectMatches ToLower (FieldService.fields s) keywords (f64_of_int 30))))) 10);
      [change (10 <? 0) with false in Hmatches; cbv iota in Hmatches|]; simplify_eq.
    - rewrite length_take. lia.
    - by apply Nat2Z.inj_le. }
  split; [done|].
  destruct matches as [|m0 ms]; [left; done|right].
  set (matches := m0 :: ms) in *.
  change (Z.of_nat (length matches) =? 0) with false. cbv iota.
  destruct (buildSQLQuery_returns ord (FieldService.relationshipGraph s) matches
              queryType distinct (QueryRequest.Limit request)) as [r Hr].
  - done.
  - intros m Hm.
    destruct (FindFieldMatches_from_catalog _ _ _ _ _ m Hmatches Hm) as (f & Hf & ->).
    by apply Hne.
  - intros allJoins Hplan. apply planJoins_stored in Hplan; [|done].
    eapply Forall_impl; [exact Hplan|]. intros j Hj.
    by eapply built_stored_To.
  - rewrite Hr. destruct r as [[query joins]|e].
    + right. split; [done|]. by exists query, joins.
    + left. split; [done|].
      apply buildSQLQuery_Err_prefix in Hr as [e' ->]; [|done]. by exists e'.
Qed.
End PipelineExtras.

(** X17. On IEEE doubles, a description of which [extractKeywords]
    keeps no word makes [GenerateQuery] fail with "no matching fields found
    for description", whatever the catalog. *)
Theorem GenerateQuery_no_keywords (ToLower : string -> string) (ord : MapOrder)
    (s : FieldService.t) (request : QueryRequest.t) (elapsed : Z) :
  extractKeywords ToLower (QueryRequest.Description request) = [] ->
  GenerateQuery (F := float) ToLower ord s request elapsed
  = Some (Returned (Err "no matching fields found for description")).
Proof.
  intros Hkw. unfold GenerateQuery. rewrite Hkw.
  destruct (identifyQueryType ToLower (QueryRequest.Description request)) as [qt d].
  rewrite FindFieldMatches_none; [done| |done].
  by apply collectMatches_no_keywords.
Qed.

Lemma GenerateQuery_no_keywords_witness :
  GenerateQuery (F := float) asciiToLower ord_rev (NewFieldService sample_records)
                (QueryRequest.mk "Show me all of them!" "default" 10) 7
  = Some (Returned (Err "no matching fields found for description")).
Proof.
  apply (GenerateQuery_no_keywords asciiToLower ord_rev (NewFieldService sample_records)
           (QueryRequest.mk "Show me all of them!" "default" 10) 7).
  vm_compute. reflexivity.
Defined.

Lemma GenerateQuery_outcomes_witness :
  let s := NewFieldService sample_records in
  let request := QueryRequest.mk "user email and order total" "default" 10 in
  let keywords := extractKeywords asciiToLower (QueryRequest.Description request) in
  let kind := identifyQueryType asciiToLower (QueryRequest.Description request) in
  exists matches : list (FieldMatch.t float),
    FindFieldMatches asciiToLower (FieldService.fields s) keywords (f64_of_int 30) 10
    = Returned matches /\
    (length matches <= 10)%nat /\
    ((matches = [] /\
      GenerateQuery (F := float) asciiToLower ord_rev s request 7
      = Some (Returned (Err "no matching fields found for description"))) \/
     (matches <> [] /\
      exists e,
        GenerateQuery (F := float) asciiToLower ord_rev s request 7
        = Some (Returned (Err ("failed to build SQL query: failed to find join path: "
                               +:+ e)))) \/
     (matches <> [] /\
      exists query joins,
        buildSQLQuery ord_rev (FieldService.relationshipGraph s) matches kind.1 kind.2
                      (QueryRequest.Limit request)
        = Some (Returned (Ok (query, joins))) /\
        GenerateQuery (F := float) asciiToLower ord_rev s request 7
        = Some (Returned (Ok (QueryResponse.mk query matches joins
                                (calculateConfidence matches) 7))))).
Proof.
  apply (GenerateQuery_outcomes (F := float) asciiToLower ord_rev sample_records
           (QueryRequest.mk "user email and order total" "default" 10) 7).
  - exact valid_order_rev.
  - intros f Hf. vm_compute in Hf.
    repeat (apply elem_of_cons in Hf as [->|Hf]; [simpl; discriminate|]).
    by apply elem_of_nil in Hf.
Defined.
